(** * Sparse matrix product in coordinate format (cusp, generic path)

    A shallow embedding of [cusp::detail::generic::multiply] from
    [cusp/detail/generic/detail/multiply.inl] together with the Thrust
    primitives it is composed of, followed by the properties of the
    expand / sort / contract pipeline.

    Modelling choices.
    - [IndexType] is a template parameter, a fixed-width integer type.  The
      class [IndexType] gives its largest value [index_max] and the value
      [index_wrap s] that an [IndexType] object holds once the sum [s] has
      been stored in it.  The sums of the source are formed by the exclusive
      scan of lines 70-72, by the write of line 73 and by the segmented scan
      of lines 102-104; each of them is stored through [index_wrap].  The
      count [coo_num_nonzeros] of line 75 is the stored value, and it is the
      size of the arrays of lines 79-120, whose allocation throws when the
      stored value is negative.  [uint8] and [int8] are the instantiations
      with [unsigned char] and [signed char].  The indices and entry counts that the operands
      hold are naturals; [within_index_range] states that the entry counts
      and the total intermediate count are values of [IndexType], and the
      theorems about completed runs with partial products assume it.
    - The subtractions of the source are [offsets[r+1] - offsets[r]], which
      is never truncated because the offsets are monotone
      ([indices_to_offsets_mono]), and [A.num_entries - 1], which has no
      value when A has no entry: the read of line 73 is then outside of
      every array.
    - [ValueType] is instantiated with [Z], an exact value type.
    - An array is a [list]; reading or writing outside of an array is
      undefined in the source and is a fault ([None]) here.
    - The destination [C] is the state of a small state-and-fault monad. *)

From Stdlib Require Import ZArith Lia.
From stdpp Require Import base tactics option list list_numbers sorting.

Local Open Scope Z_scope.
Local Open Scope nat_scope.

(** ** Data model *)

(** Modelled from the spec: [cusp::coo_matrix<IndexType,ValueType,
    SpaceOrAlloc>] is declared in [cusp/coo_matrix.h]; section 3 gives its
    fields, [num_rows], [num_cols], [num_entries] and the three sequences
    [row_indices], [column_indices], [values]. *)
Record coo_matrix : Type := Coo {
  num_rows : nat;
  num_cols : nat;
  num_entries : nat;
  row_indices : list nat;
  column_indices : list nat;
  values : list Z
}.

(** One (row, column, value) record of a triplet stream. *)
Definition triplet : Type := (nat * nat * Z)%type.

(** [cusp::array1d<T,MemorySpace> a(n, x)]; [a(n)] value-initialises,
    that is [x = 0]. *)
Definition array1d {X} (n : nat) (x : X) : list X := replicate n x.

(** [std::vector::resize] is stdpp's [resize n d l]: it keeps the first [n]
    elements of [l] and pads with [d] up to length [n]. *)

(** Modelled from the spec: the constructor [coo_matrix(num_rows, num_cols,
    num_entries)] of [cusp/coo_matrix.h], the container's construct API of
    section 6: the given dimensions and three arrays of [num_entries]
    value-initialised slots. *)
Definition coo_matrix_new (r c n : nat) : coo_matrix :=
  Coo r c n (array1d n 0) (array1d n 0) (array1d n 0%Z).

(** Modelled from the spec: [coo_matrix::resize(rows, cols, nnz)] lives in
    [cusp/coo_matrix.h]; section 6 describes it as the container's
    resize/construct API over (rows, cols, nnz).  It sets the three
    dimensions and resizes the three arrays. *)
Definition coo_resize (r c n : nat) (M : coo_matrix) : coo_matrix :=
  Coo r c n (resize n 0 (row_indices M)) (resize n 0 (column_indices M))
      (resize n 0%Z (values M)).

(** ** The index type *)

(** [IndexType], the first template parameter of [multiply]: a fixed-width
    integer type.  An [IndexType] object is modelled by a natural:
    [index_max] is the largest value of the type, and a natural above
    [index_max] stands for a negative value (it is the object's bit
    pattern).  [index_wrap s] is what an [IndexType] object holds once the
    sum [s] of two objects has been stored in it: the sum itself when it is
    within range, and otherwise what the instantiation makes of it (a type
    of [w] bits keeps the sum modulo [2^w]). *)
Class IndexType : Type := {
  index_max : nat;
  index_wrap : nat → nat;
  index_wrap_exact : ∀ s, s ≤ index_max → index_wrap s = s
}.

(** [unsigned char]: eight bits, sums reduced modulo 256, every bit pattern
    a value. *)
Definition uint8 : IndexType := {|
  index_max := 255;
  index_wrap := λ s, s mod 256;
  index_wrap_exact := λ s Hs, Nat.mod_small s 256 (proj2 (Nat.lt_succ_r s 255) Hs)
|}.

(** [signed char] in two's complement: eight bits, largest value 127; the
    bit patterns 128 to 255 are the negative values -128 to -1. *)
Definition int8 : IndexType := {|
  index_max := 127;
  index_wrap := λ s, s mod 256;
  index_wrap_exact := λ s Hs,
    Nat.mod_small s 256
      (Nat.le_lt_trans s 127 256 Hs (proj1 (Nat.ltb_lt 127 256) eq_refl))
|}.

(** [cusp::array1d<T,MemorySpace> a(n, x)] with the size [n] given by an
    [IndexType] object, as in [segments(coo_num_nonzeros, 0)]: a negative
    size makes the allocation throw. *)
Definition allocate {ix : IndexType} {X} (n : nat) (x : X) : option (list X) :=
  if bool_decide (n ≤ index_max) then Some (array1d n x) else None.

(** ** Thrust primitives *)

Section primitives.
Context {X : Type}.

(** [thrust::gather(first, last, map, input)]:
    [first[i] = input[map[i]]] for [i] in [0, last - first). *)
Fixpoint gather (n : nat) (map : list nat) (input : list X) : option (list X) :=
  match n with
  | 0 => Some []
  | S n' =>
      match map with
      | [] => None
      | m :: map' =>
          x ← input !! m;
          out ← gather n' map' input;
          Some (x :: out)
      end
  end.

(** [thrust::scatter_if(first, last, map, stencil, output)]:
    [output[map[i]] = first[i]] for every [i] whose stencil is nonzero. *)
Fixpoint scatter_if (src : list X) (map stencil : list nat) (output : list X)
  : option (list X) :=
  match src with
  | [] => Some output
  | x :: src' =>
      match map, stencil with
      | m :: map', s :: stencil' =>
          if s =? 0 then scatter_if src' map' stencil' output
          else if m <? length output
               then scatter_if src' map' stencil' (<[m := x]> output)
               else None
      | _, _ => None
      end
  end.

(** Running accumulation used by the inclusive scans. *)
Fixpoint scan_from (op : X → X → X) (acc : X) (l : list X) : list X :=
  match l with
  | [] => []
  | x :: l' => let y := op acc x in y :: scan_from op y l'
  end.

(** [thrust::inclusive_scan(first, last, result, op)]. *)
Definition inclusive_scan (op : X → X → X) (l : list X) : list X :=
  match l with
  | [] => []
  | x :: l' => x :: scan_from op x l'
  end.

(** [thrust::transform(first1, last1, first2, result, op)]. *)
Definition transform (op : X → X → X) (l1 l2 : list X) : list X :=
  zip_with op l1 l2.
End primitives.

(** [thrust::exclusive_scan(first, last, result, init)] with [plus]: writes
    [last - first] sums at the start of [result] and leaves the rest.  The
    running sum is an [IndexType] object. *)
Fixpoint exclusive_scan {ix : IndexType} (input : list nat) (init : nat)
    (result : list nat) : option (list nat) :=
  match input with
  | [] => Some result
  | x :: input' =>
      match result with
      | [] => None
      | _ :: result' =>
          out ← exclusive_scan input' (index_wrap (init + x)) result';
          Some (init :: out)
      end
  end.

(** [thrust::experimental::inclusive_segmented_scan(first1, last1, first2,
    result)]: a [plus] scan over the values that restarts wherever the key
    differs from the key before it.  The values are [IndexType] objects. *)
Fixpoint segmented_scan_from {ix : IndexType} (key acc : nat) (vals keys : list nat)
  : option (list nat) :=
  match vals with
  | [] => Some []
  | v :: vals' =>
      match keys with
      | [] => None
      | k :: keys' =>
          let y := if k =? key then index_wrap (acc + v) else v in
          out ← segmented_scan_from k y vals' keys';
          Some (y :: out)
      end
  end.

Definition inclusive_segmented_scan {ix : IndexType} (vals keys : list nat)
  : option (list nat) :=
  match vals with
  | [] => Some []
  | v :: vals' =>
      match keys with
      | [] => None
      | k :: keys' =>
          out ← segmented_scan_from k v vals' keys';
          Some (v :: out)
      end
  end.

(** [thrust::sort_by_key(keys_first, keys_last, values_first)].  Thrust's
    implementation of [sort_by_key] forwards to [stable_sort_by_key]; the
    model is the stable insertion sort on (key, payload) records.  The
    second pass of lines 135-136 relies on that stability. *)
Fixpoint insert_by_key {V} (k : nat) (v : V) (l : list (nat * V)) : list (nat * V) :=
  match l with
  | [] => [(k, v)]
  | (k', v') :: l' =>
      if k <=? k' then (k, v) :: (k', v') :: l'
      else (k', v') :: insert_by_key k v l'
  end.

Fixpoint sort_records {V} (l : list (nat * V)) : list (nat * V) :=
  match l with
  | [] => []
  | (k, v) :: l' => insert_by_key k v (sort_records l')
  end.

Definition sort_by_key {V} (keys : list nat) (vals : list V) : list nat * list V :=
  let r := sort_records (zip keys vals) in (r.*1, r.*2).

(** [thrust::unique_by_key(keys_first, keys_last, values_first, equal_to,
    plus)]: every run of consecutive equal keys collapses to its first key,
    the values of the run being accumulated from left to right. *)
Fixpoint reduce_run (k : nat * nat) (acc : Z) (l : list (nat * nat * Z))
  : list (nat * nat * Z) :=
  match l with
  | [] => [(k, acc)]
  | (k', v') :: l' =>
      if bool_decide (k = k') then reduce_run k (acc + v')%Z l'
      else (k, acc) :: reduce_run k' v' l'
  end.

Definition reduce_by_key (l : list (nat * nat * Z)) : list (nat * nat * Z) :=
  match l with
  | [] => []
  | (k, v) :: l' => reduce_run k v l'
  end.

(** The compaction is in place: the arrays keep their length, the first
    [NNZ] slots hold the result, and [NNZ] is returned. *)
Definition unique_by_key (keys : list (nat * nat)) (vals : list Z)
  : list (nat * nat) * list Z * nat :=
  let r := reduce_by_key (zip keys vals) in
  let NNZ := length r in
  (r.*1 ++ drop NNZ keys, r.*2 ++ drop NNZ vals, NNZ).

(** Modelled from the spec: [cusp::detail::indices_to_offsets] lives in
    [cusp/detail/format_utils.h].  Section 4.1: from a row-index sequence
    sorted ascending it produces one row start offset per slot of
    [offsets], so [offsets[r]] is the number of indices below [r]. *)
Definition indices_to_offsets (indices offsets : list nat) : list nat :=
  (λ r, length (filter (λ i, i < r) indices)) <$> seq 0 (length offsets).

(** ** The destination as state *)

(** A computation over the destination matrix that may fault. *)
Definition M (X : Type) : Type := coo_matrix → option X * coo_matrix.

Global Instance M_ret : MRet M := λ X x C, (Some x, C).
Global Instance M_bind : MBind M := λ X Y f m C,
  match m C with
  | (Some x, C') => f x C'
  | (None, C') => (None, C')
  end.

(** A bounds-checked read-only step. *)
Definition lift {X} (o : option X) : M X := λ C, (o, C).

(** Modelled from the spec: [coo_matrix::swap] of [cusp/coo_matrix.h];
    by section 3 the fresh matrix is swapped into the destination, which
    takes the contents of [temp] (the old contents die with [temp]). *)
Definition C_swap (temp : coo_matrix) : M unit := λ _, (Some (), temp).

(** [C.resize(rows, cols, nnz)]. *)
Definition C_resize (r c n : nat) : M unit := λ C, (Some (), coo_resize r c n C).

(** [C.row_indices = I], [C.column_indices = J], [C.values = V]. *)
Definition C_set_row_indices (I2 : list nat) : M unit := λ C,
  (Some (), Coo (num_rows C) (num_cols C) (num_entries C)
                I2 (column_indices C) (values C)).
Definition C_set_column_indices (J2 : list nat) : M unit := λ C,
  (Some (), Coo (num_rows C) (num_cols C) (num_entries C)
                (row_indices C) J2 (values C)).
Definition C_set_values (V2 : list Z) : M unit := λ C,
  (Some (), Coo (num_rows C) (num_cols C) (num_entries C)
                (row_indices C) (column_indices C) V2).

(** ** The stages of [multiply] *)

(** Lines 54-60: row offsets and row lengths of [B], two arrays of
    [IndexType] whose values are at most [B.num_entries]. *)
Definition B_row_offsets (B : coo_matrix) : list nat :=
  indices_to_offsets (row_indices B) (array1d (num_rows B + 1) 0).

Definition B_row_lengths (B : coo_matrix) : list nat :=
  transform Nat.sub (drop 1 (B_row_offsets B)) (B_row_offsets B).

(** Lines 62-66: for each element A(i,j) the number of entries of B(j,:). *)
Definition segment_lengths (A B : coo_matrix) : option (list nat) :=
  gather (num_entries A) (column_indices A) (B_row_lengths B).

(** Indexed store [a[i] = x]. *)
Definition store {X} (a : list X) (i : nat) (x : X) : option (list X) :=
  if i <? length a then Some (<[i := x]> a) else None.

(** Lines 69-72: the exclusive scan into an array of [n + 1] zeros. *)
Definition output_ptr_scan {ix : IndexType} (n : nat) (seg : list nat)
  : option (list nat) :=
  exclusive_scan seg 0 (array1d (n + 1) 0).

(** Line 73: [output_ptr[n] = output_ptr[n - 1] + segment_lengths[n - 1]].
    The sum is stored in an [IndexType] slot.  With [n = 0] the index
    [n - 1] is outside of every array. *)
Definition trailing_write {ix : IndexType} (n : nat) (ptr seg : list nat)
  : option (list nat) :=
  match n with
  | 0 => None
  | S m =>
      a ← ptr !! m;
      b ← seg !! m;
      store ptr n (index_wrap (a + b))
  end.

Definition output_ptr {ix : IndexType} (n : nat) (seg : list nat)
  : option (list nat) :=
  ptr ← output_ptr_scan n seg;
  trailing_write n ptr seg.

(** Lines 79-84: the owning A-entry of every intermediate position, in an
    array allocated with [coo_num_nonzeros] slots.  The entry indices
    [0 .. A.num_entries) are enumerated by [counting_iterator<IndexType>],
    which presupposes that [A.num_entries] is a value of [IndexType]. *)
Definition segments {ix : IndexType} (n T : nat) (ptr seg : list nat)
  : option (list nat) :=
  out ← allocate T 0;
  s ← scatter_if (seq 0 n) ptr seg out;
  Some (inclusive_scan Nat.max s).

(** Lines 87-104: the read position in B of every intermediate position,
    in an array allocated with [coo_num_nonzeros] slots. *)
Definition gather_locations {ix : IndexType} (A B : coo_matrix) (T : nat)
    (ptr seg segs : list nat) : option (list nat) :=
  out ← allocate T 1;
  temp ← gather (num_entries A) (column_indices A) (B_row_offsets B);
  g ← scatter_if temp ptr seg out;
  inclusive_segmented_scan g segs.

(** Lines 63-130: the data-parallel expansion into the arrays I, J, V.
    [coo_num_nonzeros] is the [IndexType] value read back from the last slot
    of [output_ptr]; the arrays [segments], [gather_locations], I, J and V
    are allocated with that many slots. *)
Definition expand {ix : IndexType} (A B : coo_matrix)
  : option (list nat * list nat * list Z) :=
  seg ← segment_lengths A B;
  ptr ← output_ptr (num_entries A) seg;
  coo_num_nonzeros ← ptr !! num_entries A;
  segs ← segments (num_entries A) coo_num_nonzeros ptr seg;
  locs ← gather_locations A B coo_num_nonzeros ptr seg segs;
  I0 ← gather coo_num_nonzeros segs (row_indices A);
  J0 ← gather coo_num_nonzeros locs (column_indices B);
  temp1 ← gather coo_num_nonzeros segs (values A);
  temp2 ← gather coo_num_nonzeros locs (values B);
  Some (I0, J0, transform Z.mul temp1 temp2).

(** Lines 132-137: sort by J, then by I. *)
Definition sort_IJ (I0 J0 : list nat) (V0 : list Z) : list nat * list nat * list Z :=
  let '(J1, IV1) := sort_by_key J0 (zip I0 V0) in
  let '(I2, JV2) := sort_by_key IV1.*1 (zip J1 IV1.*2) in
  (I2, JV2.*1, JV2.*2).

(** Lines 139-147: merge duplicate (I,J) entries and shrink the arrays. *)
Definition compress (I0 J0 : list nat) (V0 : list Z) : list nat * list nat * list Z * nat :=
  let '(IJ, V', NNZ) := unique_by_key (zip I0 J0) V0 in
  (resize NNZ 0 IJ.*1, resize NNZ 0 IJ.*2, resize NNZ 0%Z V', NNZ).

(** Lines 40-153. *)
Definition multiply {ix : IndexType} (A B : coo_matrix) : M unit :=
  if bool_decide (num_entries A = 0 ∨ num_entries B = 0) then
    C_swap (coo_matrix_new (num_rows A) (num_cols B) 0)
  else
    '(I0, J0, V0) ← lift (expand A B);
    let '(I1, J1, V1) := sort_IJ I0 J0 V0 in
    let '(I2, J2, V2, NNZ) := compress I1 J1 V1 in
    C_resize (num_rows A) (num_cols B) NNZ;;
    C_set_row_indices I2;;
    C_set_column_indices J2;;
    C_set_values V2.

(** The dense product of lines 158-176.  [cusp::array2d] is an external
    container; a dense matrix is given by its element access [A(i,k)].  The
    innermost loop accumulates [v += A(i,k) * B(k,j)] for ascending [k]. *)
Fixpoint dense_dot (a b : nat → Z) (n : nat) : Z :=
  match n with
  | 0 => 0%Z
  | S k => (dense_dot a b k + a k * b k)%Z
  end.

Definition dense_multiply (A_num_cols : nat) (A B : nat → nat → Z) (i j : nat) : Z :=
  dense_dot (A i) (λ k, B k j) A_num_cols.

(** ** Reference descriptions used by the proofs *)

(** Exclusive prefix sums of a list, starting from [init]. *)
Fixpoint prefix_sums (init : nat) (l : list nat) : list nat :=
  match l with
  | [] => []
  | x :: l' => init :: prefix_sums (init + x) l'
  end.

(** A segment of length [len] whose first slot holds [x], the others [d]. *)
Definition head_marked {X} (d x : X) (len : nat) : list X :=
  match len with
  | 0 => []
  | S len' => x :: replicate len' d
  end.

(** The number of indices below [r], respectively equal to [r]. *)
Definition count_lt (r : nat) (indices : list nat) : nat :=
  length (filter (λ i, i < r) indices).
Definition count_eq (r : nat) (indices : list nat) : nat :=
  length (filter (λ i, i = r) indices).

(** The entries of a matrix as a list of triplets. *)
Definition coo_triplets (M : coo_matrix) : list triplet :=
  zip (zip (row_indices M) (column_indices M)) (values M).

(** The part of an array of B that belongs to row [j]: [row_length[j]]
    slots from [offsets[j]] on. *)
Definition B_slice {X} (B : coo_matrix) (arr : list X) (j : nat) : list X :=
  take (count_eq j (row_indices B)) (drop (count_lt j (row_indices B)) arr).

(** Container invariant: three arrays of [num_entries] slots, every index
    within the declared bounds. *)
Definition coo_wf (M : coo_matrix) : Prop :=
  length (row_indices M) = num_entries M ∧
  length (column_indices M) = num_entries M ∧
  length (values M) = num_entries M ∧
  Forall (λ i, i < num_rows M) (row_indices M) ∧
  Forall (λ j, j < num_cols M) (column_indices M).

(** The segment length of every entry of A. *)
Definition row_counts (A B : coo_matrix) : list nat :=
  (λ j, count_eq j (row_indices B)) <$> column_indices A.

(** Three parallel arrays read as one triplet stream. *)
Definition stream (I0 J0 : list nat) (V0 : list Z) : list triplet :=
  zip (zip I0 J0) V0.

(** The (column, value) pairs of the slice of row [j] of B. *)
Definition B_row (B : coo_matrix) (j : nat) : list (nat * Z) :=
  B_slice B (zip (column_indices B) (values B)) j.

(** The partial products of one entry of A, and of all of them in the
    order of A's entries. *)
Definition product_chunk (B : coo_matrix) (e : triplet) : list triplet :=
  (λ cb, (e.1.1, cb.1, (e.2 * cb.2)%Z)) <$> B_row B e.1.2.

Definition partial_products (A B : coo_matrix) : list triplet :=
  concat (product_chunk B <$> stream (row_indices A) (column_indices A) (values A)).

(** The sequential expansion of section 4.4 (a): for every entry [n] of A
    (row [i], column [j], value [a]) and every [k] below the length of row
    [j] of B, one triplet
    [(i, B.column_indices[offsets[j] + k], a * B.values[offsets[j] + k])]. *)
Definition emit (A B : coo_matrix) (n k : nat) : option triplet :=
  i ← row_indices A !! n;
  j ← column_indices A !! n;
  a ← values A !! n;
  o ← B_row_offsets B !! j;
  c ← column_indices B !! (o + k);
  b ← values B !! (o + k);
  Some (i, c, (a * b)%Z).

Definition expansion_sequential (A B : coo_matrix) : option (list triplet) :=
  chunks ← mapM (λ n, j ← column_indices A !! n;
                      len ← B_row_lengths B !! j;
                      mapM (emit A B n) (seq 0 len))
                (seq 0 (num_entries A));
  Some (concat chunks).

(** The two sorting passes and the merge, seen on a list of triplets. *)
Definition by_col (t : triplet) : nat * (nat * Z) := (t.1.2, (t.1.1, t.2)).
Definition by_row (r : nat * (nat * Z)) : nat * (nat * Z) := (r.2.1, (r.1, r.2.2)).
Definition of_row_record (r : nat * (nat * Z)) : triplet := (r.1, r.2.1, r.2.2).

Definition sort_stream (s : list triplet) : list triplet :=
  of_row_record <$> sort_records (by_row <$> sort_records (by_col <$> s)).

(** The canonical sort/merge normalisation of a triplet stream. *)
Definition normalize (s : list triplet) : list triplet :=
  reduce_by_key (sort_stream s).

(** The matrix whose three arrays hold the triplets [s]. *)
Definition coo_of_stream (r c : nat) (s : list triplet) : coo_matrix :=
  Coo r c (length s) s.*1.*1 s.*1.*2 s.*2.

(** Lexicographic order on (row, column) coordinates. *)
Definition lex_le (x y : nat * nat) : Prop := x.1 < y.1 ∨ (x.1 = y.1 ∧ x.2 ≤ y.2).
Definition lex_lt (x y : nat * nat) : Prop := x.1 < y.1 ∨ (x.1 = y.1 ∧ x.2 < y.2).

(** The value of a matrix at coordinate (i, j): the sum of the values of
    the triplets stored at that coordinate. *)
Fixpoint entry_sum (s : list triplet) (i j : nat) : Z :=
  match s with
  | [] => 0%Z
  | t :: s' =>
      if bool_decide (t.1 = (i, j)) then (t.2 + entry_sum s' i j)%Z
      else entry_sum s' i j
  end.

Definition coo_entry (M : coo_matrix) (i j : nat) : Z :=
  entry_sum (coo_triplets M) i j.

(** The sum of the values of a row slice at column [j]. *)
Fixpoint row_sum (l : list (nat * Z)) (j : nat) : Z :=
  match l with
  | [] => 0%Z
  | cb :: l' =>
      if bool_decide (cb.1 = j) then (cb.2 + row_sum l' j)%Z else row_sum l' j
  end.

(** B's entries are sorted by row. *)
Definition row_sorted (M : coo_matrix) : Prop := Sorted le (row_indices M).

(** The contribution of the entries of row [i] of a stream against the
    column vector [g]. *)
Fixpoint row_dot (ents : list triplet) (i : nat) (g : nat → Z) : Z :=
  match ents with
  | [] => 0%Z
  | e :: ents' =>
      if bool_decide (e.1.1 = i) then (e.2 * g e.1.2 + row_dot ents' i g)%Z
      else row_dot ents' i g
  end.

(** The source's sort and merge passes applied to three arrays. *)
Definition sort_merge (I0 J0 : list nat) (V0 : list Z)
  : list nat * list nat * list Z * nat :=
  let '(I1, J1, V1) := sort_IJ I0 J0 V0 in compress I1 J1 V1.

(** The identity matrix of size [n]: a COO diagonal of ones. *)
Definition identity (n : nat) : coo_matrix :=
  Coo n n n (seq 0 n) (seq 0 n) (replicate n 1%Z).

(** Operands of a product: well-formed, with matching inner dimension. *)
Definition valid_operands (A B : coo_matrix) : Prop :=
  coo_wf A ∧ coo_wf B ∧ num_cols A = num_rows B.

(** The sums that a run forms are values of [IndexType]: the total T of
    the segment lengths, which bounds the prefix sums, and the last read
    position in B of every nonempty segment. *)
Definition sums_fit {ix : IndexType} (A B : coo_matrix) : Prop :=
  sum_list (row_counts A B) ≤ index_max ∧
  Forall (λ j, count_eq j (row_indices B) = 0 ∨
               count_lt j (row_indices B) + count_eq j (row_indices B) ≤ S index_max)
         (column_indices A).

(** Every index value of a run is a value of [IndexType]: the entry counts
    of the operands, which bound the entry indices, the row offsets and the
    read positions in B, and the total intermediate count T, the sum of all
    segment lengths, which bounds the prefix sums. *)
Definition within_index_range {ix : IndexType} (A B : coo_matrix) : Prop :=
  num_entries A ≤ index_max ∧ num_entries B ≤ index_max ∧
  ∃ seg, segment_lengths A B = Some seg ∧ sum_list seg ≤ index_max.

(** ** Concrete operands *)

(** The scenario of section 8: [[1,0],[0,2]] times [[0,3],[4,0]]. *)
Definition scenario_A : coo_matrix := Coo 2 2 2 [0; 1] [0; 1] [1; 2]%Z.
Definition scenario_B : coo_matrix := Coo 2 2 2 [0; 1] [1; 0] [3; 4]%Z.

(** A left operand with unsorted entries and duplicate products, and a
    right operand with an empty middle row. *)
Definition wide_A : coo_matrix :=
  Coo 3 3 5 [2; 0; 2; 1; 0] [1; 0; 2; 1; 0] [1; 2; 3; 4; 5]%Z.
Definition wide_B : coo_matrix :=
  Coo 3 4 4 [0; 0; 2; 2] [3; 1; 1; 0] [3; 4; 5; 7]%Z.

(** Nonempty operands without partial products: A only has entries in
    column 0, B only in row 1. *)
Definition hollow_A : coo_matrix := Coo 2 2 1 [0] [0] [5]%Z.
Definition hollow_B : coo_matrix := Coo 2 2 1 [1] [0] [7]%Z.

(** A left operand whose column index lies outside of B. *)
Definition stray_A : coo_matrix := Coo 2 2 1 [0] [3] [5]%Z.

(** A destination with previous contents. *)
Definition used_C : coo_matrix := Coo 4 4 3 [3; 3; 3] [2; 2; 2] [9; 9; 9]%Z.

(** [wide_A] and [wide_B] with their entries stored in another order (B
    still sorted by row). *)
Definition shuffled_A : coo_matrix :=
  Coo 3 3 5 [0; 1; 2; 0; 2] [0; 1; 1; 0; 2] [5; 4; 1; 2; 3]%Z.
Definition shuffled_B : coo_matrix :=
  Coo 3 4 4 [0; 0; 2; 2] [1; 3; 0; 1] [4; 3; 7; 5]%Z.

(** A third factor, of shape 4 x 2 and sorted by row. *)
Definition tail_D : coo_matrix := Coo 4 2 3 [0; 1; 3] [1; 0; 1] [2; -1; 3]%Z.

(** A column of five ones and a row of one hundred ones: an outer product
    with five hundred partial products. *)
Definition tall_A : coo_matrix :=
  Coo 5 1 5 [0; 1; 2; 3; 4] [0; 0; 0; 0; 0] [1; 1; 1; 1; 1]%Z.
Definition long_B : coo_matrix :=
  Coo 1 100 100 (replicate 100 0) (seq 0 100) (replicate 100 1%Z).

(** [tall_A] with its first two entries exchanged. *)
Definition swapped_A : coo_matrix :=
  Coo 5 1 5 [1; 0; 2; 3; 4] [0; 0; 0; 0; 0] [1; 1; 1; 1; 1]%Z.

(** A column of twelve ones and a row of eleven ones: an outer product
    with 132 partial products. *)
Definition dozen_A : coo_matrix :=
  Coo 12 1 12 (seq 0 12) (replicate 12 0) (replicate 12 1%Z).
Definition eleven_B : coo_matrix :=
  Coo 1 11 11 (replicate 11 0) (seq 0 11) (replicate 11 1%Z).

(** A single row of three hundred ones. *)
Definition broad_B : coo_matrix :=
  Coo 1 300 300 (replicate 300 0) (seq 0 300) (replicate 300 1%Z).

(** Side conditions on concrete operands. *)
Ltac solve_range :=
  unfold within_index_range;
  split_and!;
    [vm_compute; lia | vm_compute; lia
    |eexists; split; [vm_compute; reflexivity|vm_compute; lia]].

Ltac solve_concrete :=
  lazymatch goal with
  | |- within_index_range _ _ => solve_range
  | |- _ ≤ index_max => vm_compute; lia
  | |- _ =>
      repeat split; simpl; try reflexivity; try lia; repeat (constructor; try lia)
  end.

(** ** The dense overload (lines 156-176) *)

(** A counted loop [for (i = first; ...; i++) body] over the indices [idx],
    threading the state and stopping at the first fault. *)
Fixpoint for_each {S} (idx : list nat) (body : nat → S → option S) (s : S)
  : option S :=
  match idx with
  | [] => Some s
  | i :: idx' => s' ← body i s; for_each idx' body s'
  end.

Module Dense.

(** Modelled from the spec: [cusp::array2d<ValueType,SpaceOrAlloc>] is
    declared in [cusp/array2d.h]; section 6 names it the dense 2D indexed
    array container and section 4 a rectangular value grid.  It holds its
    two dimensions and one array of cells, stored row by row. *)
Record array2d : Type := Array2d {
  num_rows : nat;
  num_cols : nat;
  values : list Z
}.

(** Modelled from the spec: the element access [A(i,j)] of
    [cusp/array2d.h], reading slot [i * num_cols + j] of the cell array. *)
Definition get (A : array2d) (i j : nat) : option Z :=
  values A !! (i * num_cols A + j).

(** Modelled from the spec: the element store [C(i,j) = v]. *)
Definition set (C : array2d) (i j : nat) (v : Z) : option array2d :=
  vs ← store (values C) (i * num_cols C + j) v;
  Some (Array2d (num_rows C) (num_cols C) vs).

(** Modelled from the spec: [array2d::resize(rows, cols)], the container's
    resize API of section 6: the new dimensions and a cell array resized to
    [rows * cols] slots. *)
Definition resize (r c : nat) (C : array2d) : array2d :=
  Array2d r c (list.resize (r * c) 0%Z (values C)).

(** Lines 168-171: [v = 0; for k < A.num_cols: v += A(i,k) * B(k,j)]. *)
Definition dot (A B : array2d) (i j : nat) : option Z :=
  for_each (seq 0 (num_cols A))
    (λ k v, a ← get A i k; b ← get B k j; Some (v + a * b)%Z) 0%Z.

(** Lines 158-176. *)
Definition multiply (A B C : array2d) : option array2d :=
  let C := resize (num_rows A) (num_cols B) C in
  for_each (seq 0 (num_rows C))
    (λ i C,
       for_each (seq 0 (num_cols C))
         (λ j C, v ← dot A B i j; set C i j v) C) C.

(** The container invariant: one cell per coordinate. *)
Definition wf (A : array2d) : Prop :=
  length (values A) = num_rows A * num_cols A.

(** The cell at (i, j), zero outside of the array. *)
Definition cell (A : array2d) (i j : nat) : Z := default 0%Z (get A i j).

(** The cells of an [r] by [c] grid given by its element function. *)
Definition grid (r c : nat) (f : nat → nat → Z) : list Z :=
  concat ((λ i, f i <$> seq 0 c) <$> seq 0 r).

End Dense.

(** The dense matrix that holds the values of a COO matrix. *)
Definition to_array2d (M : coo_matrix) : Dense.array2d :=
  Dense.Array2d (num_rows M) (num_cols M)
                (Dense.grid (num_rows M) (num_cols M) (coo_entry M)).

(** Concrete dense operands: a 2 x 3 and a 3 x 2 grid, and a destination
    with previous contents. *)
Definition dense_P : Dense.array2d := Dense.Array2d 2 3 [1; 0; 2; 0; 3; -1]%Z.
Definition dense_Q : Dense.array2d := Dense.Array2d 3 2 [4; 1; 0; 2; 5; 0]%Z.
Definition dense_used : Dense.array2d := Dense.Array2d 1 5 [9; 9; 9; 9; 9]%Z.

(** * Properties *)

Section properties.
Context {ix : IndexType}.

(** ** Gather *)

Lemma gather_mapM {X} (map : list nat) (input : list X) :
  gather (length map) map input = mapM (λ m, input !! m) map.
Proof.
  induction map as [|m map IH]; simpl; [done|].
  rewrite IH. done.
Qed.

Lemma gather_take {X} n (map : list nat) (input : list X) :
  n ≤ length map → gather n map input = mapM (λ m, input !! m) (take n map).
Proof.
  revert map. induction n as [|n IH]; intros [|m map] Hn; simpl in *; try done; try lia.
  rewrite IH by lia. done.
Qed.

Lemma gather_fmap {X} (f : nat → X) (map : list nat) (input : list X) :
  Forall (λ m, input !! m = Some (f m)) map →
  gather (length map) map input = Some (f <$> map).
Proof.
  intros H. rewrite gather_mapM. apply mapM_Some.
  induction H; simpl; constructor; auto.
Qed.

Lemma gather_length {X} n (map : list nat) (input out : list X) :
  gather n map input = Some out → length out = n.
Proof.
  revert map out. induction n as [|n IH]; intros [|m map] out; simpl; intros H;
    simplify_option_eq; try done.
  simpl. f_equal. eauto.
Qed.

(** ** Exclusive scan *)

Lemma length_prefix_sums init l : length (prefix_sums init l) = length l.
Proof. revert init. induction l; intros; simpl; auto. Qed.

Lemma lookup_prefix_sums init l k :
  k < length l → prefix_sums init l !! k = Some (init + sum_list (take k l)).
Proof.
  revert init k. induction l as [|x l IH]; intros init [|k] Hk; simpl in *; try lia.
  - f_equal. lia.
  - rewrite IH by lia. f_equal. lia.
Qed.

Lemma exclusive_scan_spec input init result :
  length input ≤ length result →
  init + sum_list input ≤ index_max →
  exclusive_scan input init result
  = Some (prefix_sums init input ++ drop (length input) result).
Proof.
  revert init result.
  induction input as [|x input IH]; intros init [|y result] H Hsum;
    simpl in *; try done; try lia.
  rewrite index_wrap_exact by lia. rewrite IH by lia. done.
Qed.

Lemma exclusive_scan_length input init result :
  length input ≤ length result →
  ∃ out, exclusive_scan input init result = Some out ∧ length out = length result.
Proof.
  revert init result.
  induction input as [|x input IH]; intros init [|y result] H;
    simpl in *; try lia; eauto.
  destruct (IH (index_wrap (init + x)) result) as (out & -> & Hout); [lia|].
  simpl. eexists. split; [done|]. simpl. lia.
Qed.

Lemma exclusive_scan_fault input init result :
  length result < length input → exclusive_scan input init result = None.
Proof.
  revert init result. induction input as [|x input IH]; intros init [|y result] H;
    simpl in *; try done; try lia.
  rewrite IH by lia. done.
Qed.

(** ** Output layout (lines 68-75) *)

Lemma output_ptr_scan_spec n seg :
  length seg = n → sum_list seg ≤ index_max →
  output_ptr_scan n seg = Some (prefix_sums 0 seg ++ [0]).
Proof.
  intros <- Hsum. unfold output_ptr_scan, array1d.
  rewrite exclusive_scan_spec by (rewrite ?length_replicate; lia).
  do 2 f_equal. rewrite drop_replicate.
  by replace (length seg + 1 - length seg) with 1 by lia.
Qed.

Lemma prefix_sums_last init l x :
  prefix_sums init (l ++ [x]) !! length l = Some (init + sum_list l).
Proof.
  rewrite lookup_prefix_sums by (rewrite length_app; simpl; lia).
  by rewrite take_app_length.
Qed.

Lemma sum_list_snoc_lookup seg m b :
  length seg = S m → seg !! m = Some b →
  sum_list seg = sum_list (take m seg) + b.
Proof.
  intros Hlen Hb.
  transitivity (sum_list (take m seg ++ drop m seg)); [by rewrite take_drop|].
  rewrite sum_list_with_app.
  assert (drop m seg = [b]) as ->; [|simpl; lia].
  apply list_eq. intros [|i]; rewrite lookup_drop; simpl.
  - by rewrite Nat.add_0_r.
  - apply lookup_ge_None. lia.
Qed.

Lemma trailing_write_spec m seg :
  length seg = S m → sum_list seg ≤ index_max →
  trailing_write (S m) (prefix_sums 0 seg ++ [0]) seg
  = Some (prefix_sums 0 seg ++ [sum_list seg]).
Proof.
  intros Hlen Hsum. unfold trailing_write.
  destruct (seg !! m) as [b|] eqn:Hb; [|apply lookup_ge_None in Hb; lia].
  rewrite lookup_app_l by (rewrite length_prefix_sums; lia).
  rewrite lookup_prefix_sums by lia. simpl.
  pose proof (sum_list_snoc_lookup seg m b Hlen Hb) as Hsplit.
  rewrite index_wrap_exact by lia.
  unfold store. rewrite length_app, length_prefix_sums. simpl.
  destruct (S m <? length seg + 1) eqn:E; [|apply Nat.ltb_ge in E; lia].
  f_equal.
  replace (S m) with (length (prefix_sums 0 seg) + 0) at 1
    by (rewrite length_prefix_sums; lia).
  rewrite insert_app_r. simpl. do 3 f_equal. lia.
Qed.

Lemma output_ptr_spec n seg :
  length seg = n → n ≠ 0 → sum_list seg ≤ index_max →
  output_ptr n seg = Some (prefix_sums 0 seg ++ [sum_list seg]).
Proof.
  intros Hlen Hn Hsum. unfold output_ptr.
  rewrite output_ptr_scan_spec by done. simpl.
  destruct n as [|m]; [done|]. by apply trailing_write_spec.
Qed.

Lemma trailing_write_is_Some m (ptr seg : list nat) :
  length ptr = S m + 1 → length seg = S m →
  is_Some (trailing_write (S m) ptr seg).
Proof.
  intros Hp Hs. unfold trailing_write.
  destruct (ptr !! m) as [a|] eqn:Ha; [|apply lookup_ge_None in Ha; lia].
  destruct (seg !! m) as [b|] eqn:Hb; [|apply lookup_ge_None in Hb; lia].
  simpl. unfold store.
  destruct (S m <? length ptr) eqn:E; [done|apply Nat.ltb_ge in E; lia].
Qed.

(** ** Scatter and the two scans over head-marked segments *)

Lemma scatter_if_heads {X} (d : X) lens : ∀ xs init pre rest,
  length pre = init → length xs = length lens →
  scatter_if xs (prefix_sums init lens ++ rest) lens (pre ++ replicate (sum_list lens) d)
  = Some (pre ++ concat (zip_with (head_marked d) xs lens)).
Proof.
  induction lens as [|l lens IH]; intros [|x xs] init pre rest Hpre Hlen;
    simpl in *; try done.
  destruct l as [|l]; simpl.
  - rewrite Nat.add_0_r. by apply IH; [|lia].
  - rewrite length_app. simpl. rewrite length_replicate.
    destruct (init <? length pre + S (l + sum_list lens)) eqn:E;
      [|apply Nat.ltb_ge in E; lia].
    replace init with (length pre + 0) at 2 by lia.
    rewrite insert_app_r. simpl.
    rewrite replicate_add.
    rewrite (cons_middle x pre), (app_assoc pre [x]), (app_assoc _ (replicate l d)).
    rewrite IH; [|rewrite !length_app, length_replicate; simpl; lia|lia].
    by rewrite <- !app_assoc.
Qed.

Lemma scan_from_zeros x n l :
  scan_from Nat.max x (replicate n 0 ++ l) = replicate n x ++ scan_from Nat.max x l.
Proof.
  induction n as [|n IH]; simpl; [done|].
  rewrite Nat.max_0_r. by rewrite IH.
Qed.

Lemma scan_max_heads lens : ∀ s acc,
  acc ≤ s →
  scan_from Nat.max acc (concat (zip_with (head_marked 0) (seq s (length lens)) lens))
  = concat (zip_with (flip replicate) (seq s (length lens)) lens).
Proof.
  induction lens as [|l lens IH]; intros s acc Hacc; simpl; [done|].
  destruct l as [|l]; simpl.
  - apply IH. lia.
  - rewrite Nat.max_r by lia. rewrite scan_from_zeros. 
    rewrite IH by lia. done.
Qed.

Lemma inclusive_scan_max l : inclusive_scan Nat.max l = scan_from Nat.max 0 l.
Proof. by destruct l. Qed.

Lemma segmented_scan_ones x acc n vals keys :
  acc + n ≤ index_max →
  segmented_scan_from x acc (replicate n 1 ++ vals) (replicate n x ++ keys)
  = out ← segmented_scan_from x (acc + n) vals keys; Some (seq (acc + 1) n ++ out).
Proof.
  revert acc. induction n as [|n IH]; intros acc Hacc; simpl.
  - rewrite Nat.add_0_r. by destruct (segmented_scan_from _ _ _ _).
  - rewrite Nat.eqb_refl. rewrite index_wrap_exact by lia. rewrite IH by lia.
    replace (acc + 1 + n) with (acc + S n) by lia.
    destruct (segmented_scan_from _ _ _ _); simpl; [|done].
    by replace (S (acc + 1)) with (acc + 1 + 1) by lia.
Qed.

Lemma segmented_scan_heads lens : ∀ key acc s temp,
  length temp = length lens → (key < s ∨ s + length lens ≤ key) →
  Forall2 (λ o l, l = 0 ∨ o + l ≤ S index_max) temp lens →
  segmented_scan_from key acc
    (concat (zip_with (head_marked 1) temp lens))
    (concat (zip_with (flip replicate) (seq s (length lens)) lens))
  = Some (concat (zip_with seq temp lens)).
Proof.
  induction lens as [|l lens IH]; intros key acc s [|o temp] Hlen Hkey Hfit;
    simpl in *; try done.
  apply Forall2_cons in Hfit as [Ho Hfit].
  destruct l as [|l]; simpl.
  - apply IH; [lia|lia|done].
  - destruct (s =? key) eqn:E; [apply Nat.eqb_eq in E; lia|].
    rewrite segmented_scan_ones by lia. rewrite IH by (done || lia). simpl.
    by rewrite Nat.add_1_r.
Qed.

Lemma inclusive_segmented_scan_from key acc vals keys :
  Forall (λ k, k ≠ key) keys →
  inclusive_segmented_scan vals keys = segmented_scan_from key acc vals keys.
Proof.
  intros H. destruct vals as [|v vals], keys as [|k keys]; simpl; try done.
  apply Forall_cons in H as [H _].
  by destruct (k =? key) eqn:E; [apply Nat.eqb_eq in E|].
Qed.

Lemma Forall_owners {X} (P : X → Prop) xs lens :
  Forall P xs → Forall P (concat (zip_with (flip replicate) xs lens)).
Proof.
  intros H. revert lens. induction H as [|x xs Hx H IH]; intros [|l lens]; simpl;
    try constructor.
  apply Forall_app. split; [by apply Forall_replicate|apply IH].
Qed.

(** ** Row offsets and row lengths of B *)

Lemma count_lt_S r l : count_lt (S r) l = count_lt r l + count_eq r l.
Proof.
  unfold count_lt, count_eq. induction l as [|x l IH]; [done|].
  rewrite !filter_cons. repeat case_decide; simpl; lia.
Qed.

Lemma count_lt_le_length r l : count_lt r l ≤ length l.
Proof. apply length_filter. Qed.

Lemma indices_to_offsets_mono indices offsets r1 r2 o1 o2 :
  r1 ≤ r2 →
  indices_to_offsets indices offsets !! r1 = Some o1 →
  indices_to_offsets indices offsets !! r2 = Some o2 →
  o1 ≤ o2.
Proof.
  unfold indices_to_offsets. rewrite !list_lookup_fmap.
  intros Hr H1 H2.
  destruct (seq 0 (length offsets) !! r1) as [x1|] eqn:E1; [|done].
  destruct (seq 0 (length offsets) !! r2) as [x2|] eqn:E2; [|done].
  apply lookup_seq in E1 as [-> _]. apply lookup_seq in E2 as [-> _].
  simpl in *. simplify_eq.
  induction indices as [|x l IH]; [done|].
  rewrite !filter_cons. repeat case_decide; simpl; lia.
Qed.

Lemma B_row_offsets_eq B :
  B_row_offsets B = (λ r, count_lt r (row_indices B)) <$> seq 0 (num_rows B + 1).
Proof.
  unfold B_row_offsets, indices_to_offsets, array1d. by rewrite length_replicate.
Qed.

Lemma B_row_offsets_lookup B r :
  r ≤ num_rows B → B_row_offsets B !! r = Some (count_lt r (row_indices B)).
Proof.
  intros Hr. rewrite B_row_offsets_eq, list_lookup_fmap, lookup_seq_lt by lia. done.
Qed.

Lemma B_row_lengths_eq B :
  B_row_lengths B = (λ r, count_eq r (row_indices B)) <$> seq 0 (num_rows B).
Proof.
  unfold B_row_lengths, transform. rewrite B_row_offsets_eq.
  apply list_eq. intros i.
  rewrite lookup_zip_with, lookup_drop, !list_lookup_fmap.
  destruct (decide (i < num_rows B)) as [Hi|Hi].
  - rewrite (lookup_seq_lt 0 (num_rows B + 1) (1 + i)) by lia.
    rewrite (lookup_seq_lt 0 (num_rows B) i) by lia. simpl.
    rewrite (lookup_seq_lt 0 (num_rows B + 1) i) by lia. simpl.
    rewrite count_lt_S. f_equal. lia.
  - rewrite (lookup_seq_ge 0 (num_rows B + 1) (1 + i)) by lia.
    rewrite (lookup_seq_ge 0 (num_rows B) i) by lia. done.
Qed.

Lemma B_row_lengths_lookup B j :
  j < num_rows B → B_row_lengths B !! j = Some (count_eq j (row_indices B)).
Proof.
  intros Hj. rewrite B_row_lengths_eq, list_lookup_fmap, lookup_seq_lt by lia. done.
Qed.

Lemma segment_lengths_spec A B :
  length (column_indices A) = num_entries A →
  Forall (λ j, j < num_rows B) (column_indices A) →
  segment_lengths A B
  = Some ((λ j, count_eq j (row_indices B)) <$> column_indices A).
Proof.
  intros Hlen Hcol. unfold segment_lengths. rewrite <- Hlen.
  apply gather_fmap. eapply Forall_impl; [done|].
  intros j Hj. by apply B_row_lengths_lookup.
Qed.

(** ** Segments and gather locations *)

Lemma allocate_spec {X} n (x : X) :
  n ≤ index_max → allocate n x = Some (array1d n x).
Proof. intros Hn. unfold allocate. by rewrite bool_decide_eq_true_2. Qed.

Lemma segments_spec n seg rest :
  length seg = n → sum_list seg ≤ index_max →
  segments n (sum_list seg) (prefix_sums 0 seg ++ rest) seg
  = Some (concat (zip_with (flip replicate) (seq 0 n) seg)).
Proof.
  intros <- Hsum. unfold segments. rewrite allocate_spec by done. simpl.
  unfold array1d.
  pose proof (scatter_if_heads 0 seg (seq 0 (length seg)) 0 [] rest) as Hs.
  rewrite !app_nil_l in Hs. rewrite Hs by (rewrite ?length_seq; done).
  simpl. rewrite inclusive_scan_max. by rewrite scan_max_heads.
Qed.

Lemma gather_locations_spec A B seg rest :
  length (column_indices A) = num_entries A →
  Forall (λ j, j < num_rows B) (column_indices A) →
  length seg = num_entries A →
  Forall2 (λ j l, l = 0 ∨ count_lt j (row_indices B) + l ≤ S index_max)
          (column_indices A) seg →
  sum_list seg ≤ index_max →
  gather_locations A B (sum_list seg) (prefix_sums 0 seg ++ rest) seg
    (concat (zip_with (flip replicate) (seq 0 (num_entries A)) seg))
  = Some (concat (zip_with seq
            ((λ j, count_lt j (row_indices B)) <$> column_indices A) seg)).
Proof.
  intros HA Hcol Hseg Hfit Hsum. unfold gather_locations.
  rewrite allocate_spec by done. simpl. unfold array1d.
  rewrite <- HA at 1.
  rewrite (gather_fmap (λ j, count_lt j (row_indices B))); last first.
  { eapply Forall_impl; [done|]. intros j Hj. simpl in Hj. apply B_row_offsets_lookup. lia. }
  simpl.
  pose proof (scatter_if_heads 1 seg
    ((λ j, count_lt j (row_indices B)) <$> column_indices A) 0 [] rest) as Hs.
  rewrite !app_nil_l in Hs.
  rewrite Hs by (rewrite ?length_fmap; simpl; congruence).
  simpl.
  rewrite (inclusive_segmented_scan_from (num_entries A) 0); last first.
  { apply Forall_owners, Forall_seq. intros; lia. }
  rewrite <- Hseg. apply segmented_scan_heads; [|lia|by apply Forall2_fmap_l].
  rewrite length_fmap. congruence.
Qed.

Lemma length_owners {X} (xs : list X) lens :
  length xs = length lens →
  length (concat (zip_with (flip replicate) xs lens)) = sum_list lens.
Proof.
  revert lens. induction xs as [|x xs IH]; intros [|l lens] H; simpl in *; try done.
  rewrite length_app, length_replicate, IH by lia. done.
Qed.

Lemma length_ranges temp lens :
  length temp = length lens →
  length (concat (zip_with seq temp lens)) = sum_list lens.
Proof.
  revert lens. induction temp as [|x xs IH]; intros [|l lens] H; simpl in *; try done.
  rewrite length_app, length_seq, IH by lia. done.
Qed.

Lemma Forall2_lookup_owners {X} (l : list X) : ∀ lens pre,
  length lens = length l →
  Forall2 (λ m y, (pre ++ l) !! m = Some y)
    (concat (zip_with (flip replicate) (seq (length pre) (length l)) lens))
    (concat (zip_with (flip replicate) l lens)).
Proof.
  induction l as [|x l IH]; intros [|n lens] pre Hlen; simpl in *; try done.
  apply Forall2_app.
  - apply Forall2_replicate. by rewrite list_lookup_middle.
  - specialize (IH lens (pre ++ [x])).
    rewrite length_app, <- app_assoc in IH. simpl in IH.
    rewrite Nat.add_1_r in IH. apply IH. lia.
Qed.

Lemma gather_owners {X} (l : list X) lens n :
  length l = n → length lens = n →
  gather (sum_list lens) (concat (zip_with (flip replicate) (seq 0 n) lens)) l
  = Some (concat (zip_with (flip replicate) l lens)).
Proof.
  intros <- Hlen.
  rewrite <- (length_owners (seq 0 (length l)) lens) by (rewrite length_seq; done).
  rewrite gather_mapM. apply mapM_Some.
  by apply (Forall2_lookup_owners l lens []).
Qed.

Lemma Forall2_lookup_range {X} (arr : list X) o n :
  o + n ≤ length arr →
  Forall2 (λ m y, arr !! m = Some y) (seq o n) (take n (drop o arr)).
Proof.
  intros H. apply Forall2_same_length_lookup. split.
  - rewrite length_seq, length_take, length_drop. lia.
  - intros i m y Hm Hy. apply lookup_seq in Hm as [-> Hi].
    rewrite lookup_take_lt, lookup_drop in Hy by done. done.
Qed.

Lemma gather_ranges {X} (arr : list X) temp lens :
  Forall2 (λ o n, o + n ≤ length arr) temp lens →
  gather (sum_list lens) (concat (zip_with seq temp lens)) arr
  = Some (concat (zip_with (λ o n, take n (drop o arr)) temp lens)).
Proof.
  intros H.
  rewrite <- (length_ranges temp lens) by (by eapply Forall2_length).
  rewrite gather_mapM. apply mapM_Some.
  induction H as [|o n temp lens Hon H IH]; simpl; [constructor|].
  apply Forall2_app; [|done]. by apply Forall2_lookup_range.
Qed.

Lemma zip_with_fmap_diag {X Y Z W} (h : Y → Z → W) (f : X → Y) (g : X → Z) l :
  zip_with h (f <$> l) (g <$> l) = (λ x, h (f x) (g x)) <$> l.
Proof. induction l; simpl; [done|]. by f_equal. Qed.

Lemma slice_in_bounds {X} (B : coo_matrix) (arr : list X) j :
  length (row_indices B) ≤ length arr →
  count_lt j (row_indices B) + count_eq j (row_indices B) ≤ length arr.
Proof.
  intros H. rewrite <- count_lt_S.
  pose proof (count_lt_le_length (S j) (row_indices B)). lia.
Qed.

Lemma gather_slices {X} A B (arr : list X) :
  length (row_indices B) ≤ length arr →
  gather (sum_list (row_counts A B))
    (concat (zip_with seq ((λ j, count_lt j (row_indices B)) <$> column_indices A)
                      (row_counts A B))) arr
  = Some (concat (B_slice B arr <$> column_indices A)).
Proof.
  intros H. unfold row_counts. rewrite gather_ranges.
  - by rewrite zip_with_fmap_diag.
  - apply Forall2_fmap. induction (column_indices A); constructor; [|done].
    simpl. by apply slice_in_bounds.
Qed.

Lemma expand_spec A B :
  coo_wf A → coo_wf B → num_cols A = num_rows B → num_entries A ≠ 0 →
  sums_fit A B →
  expand A B
  = Some (concat (zip_with (flip replicate) (row_indices A) (row_counts A B)),
          concat (B_slice B (column_indices B) <$> column_indices A),
          transform Z.mul
            (concat (zip_with (flip replicate) (values A) (row_counts A B)))
            (concat (B_slice B (values B) <$> column_indices A))).
Proof.
  intros (HAr & HAc & HAv & _ & HAcol) (HBr & HBc & HBv & _ & _) Hdim Hne
    [Hsum Hpos].
  assert (Forall (λ j, j < num_rows B) (column_indices A)) as Hcol.
  { by rewrite <- Hdim. }
  assert (length (row_counts A B) = num_entries A) as Hseg.
  { unfold row_counts. by rewrite length_fmap. }
  assert (Forall2 (λ j l, l = 0 ∨ count_lt j (row_indices B) + l ≤ S index_max)
            (column_indices A) (row_counts A B)) as Hfit.
  { unfold row_counts. apply Forall2_fmap_r, Forall_Forall2_diag.
    eapply Forall_impl; [exact Hpos|]. done. }
  unfold expand. rewrite segment_lengths_spec by done. simpl.
  fold (row_counts A B).
  rewrite output_ptr_spec by done. simpl.
  rewrite lookup_app_r by (rewrite length_prefix_sums; lia).
  rewrite length_prefix_sums, Hseg, Nat.sub_diag. simpl.
  rewrite segments_spec by done. simpl.
  rewrite gather_locations_spec by done. simpl.
  rewrite gather_owners by done. simpl.
  fold (row_counts A B). rewrite gather_slices by lia. simpl.
  rewrite gather_owners by done. simpl.
  rewrite gather_slices by lia. done.
Qed.

Lemma zip_with_concat_fmap {E X Y W} (f : X → Y → W) (F : E → list X) (G : E → list Y) ents :
  (∀ e, length (F e) = length (G e)) →
  zip_with f (concat (F <$> ents)) (concat (G <$> ents))
  = concat ((λ e, zip_with f (F e) (G e)) <$> ents).
Proof.
  intros H. induction ents as [|e ents IH]; csimpl; [done|].
  rewrite zip_with_app by done. by rewrite IH.
Qed.

Lemma length_B_slice {X} B (arr : list X) j :
  length (row_indices B) ≤ length arr →
  length (B_slice B arr j) = count_eq j (row_indices B).
Proof.
  intros H. unfold B_slice. rewrite length_take, length_drop.
  pose proof (slice_in_bounds B arr j H). lia.
Qed.

Lemma B_row_zip B j :
  B_row B j = zip (B_slice B (column_indices B) j) (B_slice B (values B) j).
Proof. unfold B_row, B_slice. by rewrite <- zip_with_take, <- zip_with_drop. Qed.

Lemma chunk_zip (i : nat) (a : Z) (cs : list nat) (bs : list Z) n :
  length cs = n → length bs = n →
  zip (zip (replicate n i) cs) (zip_with Z.mul (replicate n a) bs)
  = (λ cb, (i, cb.1, (a * cb.2)%Z)) <$> zip cs bs.
Proof.
  revert cs bs. induction n as [|n IH]; intros [|c cs] [|b bs] Hc Hb;
    simpl in *; try done.
  f_equal. apply IH; lia.
Qed.

Lemma rows_of_stream A :
  length (row_indices A) = num_entries A →
  length (column_indices A) = num_entries A →
  length (values A) = num_entries A →
  row_indices A
  = (λ e : triplet, e.1.1) <$> stream (row_indices A) (column_indices A) (values A).
Proof.
  intros HAr HAc HAv. unfold stream.
  transitivity ((zip (zip (row_indices A) (column_indices A)) (values A)).*1.*1);
    [|by rewrite <- list_fmap_compose].
  rewrite !fst_zip; [done|lia|rewrite length_zip_with; lia].
Qed.

Lemma cols_of_stream A :
  length (row_indices A) = num_entries A →
  length (column_indices A) = num_entries A →
  length (values A) = num_entries A →
  column_indices A
  = (λ e : triplet, e.1.2) <$> stream (row_indices A) (column_indices A) (values A).
Proof.
  intros HAr HAc HAv. unfold stream.
  transitivity ((zip (zip (row_indices A) (column_indices A)) (values A)).*1.*2);
    [|by rewrite <- list_fmap_compose].
  rewrite fst_zip, snd_zip; [done|lia|rewrite length_zip_with; lia].
Qed.

Lemma vals_of_stream A :
  length (row_indices A) = num_entries A →
  length (column_indices A) = num_entries A →
  length (values A) = num_entries A →
  values A
  = (λ e : triplet, e.2) <$> stream (row_indices A) (column_indices A) (values A).
Proof.
  intros HAr HAc HAv. unfold stream.
  transitivity ((zip (zip (row_indices A) (column_indices A)) (values A)).*2);
    [|done].
  rewrite snd_zip; [done|rewrite length_zip_with; lia].
Qed.

Lemma expand_stream A B :
  coo_wf A → coo_wf B → num_cols A = num_rows B → num_entries A ≠ 0 →
  sums_fit A B →
  ∃ I0 J0 V0, expand A B = Some (I0, J0, V0) ∧ stream I0 J0 V0 = partial_products A B.
Proof.
  intros HA HB Hdim Hne Hfit. do 3 eexists. split; [by apply expand_spec|].
  destruct HA as (HAr & HAc & HAv & _ & _). destruct HB as (HBr & HBc & HBv & _ & _).
  unfold stream at 1, partial_products, transform, row_counts.
  pose proof (rows_of_stream A HAr HAc HAv) as Er.
  pose proof (cols_of_stream A HAr HAc HAv) as Ec.
  pose proof (vals_of_stream A HAr HAc HAv) as Ev.
  set (ents := stream _ _ _) in *. clearbody ents.
  rewrite Er, Ec, Ev.
  rewrite <- !list_fmap_compose, !zip_with_fmap_diag.
  rewrite (zip_with_concat_fmap Z.mul); last first.
  { intros e. simpl. rewrite length_replicate, length_B_slice; [done|lia]. }
  rewrite (zip_with_concat_fmap pair); last first.
  { intros e. simpl. rewrite length_replicate, length_B_slice; [done|lia]. }
  rewrite (zip_with_concat_fmap pair); last first.
  { intros e. simpl. rewrite !length_zip_with, !length_replicate, !length_B_slice; lia. }
  f_equal. apply list_fmap_ext. intros _ e _. unfold product_chunk.
  rewrite B_row_zip. simpl.
  apply chunk_zip; rewrite length_B_slice; lia.
Qed.

(** ** The sequential expansion *)

Lemma stream_lookup I0 J0 V0 n (e : triplet) :
  stream I0 J0 V0 !! n = Some e ↔
  I0 !! n = Some e.1.1 ∧ J0 !! n = Some e.1.2 ∧ V0 !! n = Some e.2.
Proof.
  unfold stream. destruct e as [[i j] v]. simpl.
  rewrite lookup_zip_with_Some. split.
  - intros ([i' j'] & v' & [= -> -> ->] & H & ?).
    apply lookup_zip_with_Some in H as (? & ? & [= -> ->] & ? & ?). done.
  - intros (Hi & Hj & Hv). exists (i, j), v. split_and!; [done| |done].
    apply lookup_zip_with_Some. eauto.
Qed.

Lemma B_row_lookup B j k (cb : nat * Z) :
  B_row B j !! k = Some cb →
  column_indices B !! (count_lt j (row_indices B) + k) = Some cb.1 ∧
  values B !! (count_lt j (row_indices B) + k) = Some cb.2.
Proof.
  unfold B_row, B_slice. intros H.
  apply lookup_take_Some in H as [H _]. rewrite lookup_drop in H.
  apply lookup_zip_with_Some in H as (c & b & -> & ? & ?). done.
Qed.

Lemma emit_chunk A B n (e : triplet) :
  coo_wf B →
  stream (row_indices A) (column_indices A) (values A) !! n = Some e →
  e.1.2 < num_rows B →
  mapM (emit A B n) (seq 0 (count_eq e.1.2 (row_indices B)))
  = Some (product_chunk B e).
Proof.
  intros (HBr & HBc & HBv & _) He Hj. apply stream_lookup in He as (Hi & Hc & Hv).
  apply mapM_Some. unfold product_chunk. apply Forall2_fmap_r.
  apply Forall2_same_length_lookup. split.
  - unfold B_row. rewrite length_seq, length_B_slice; [done|].
    rewrite length_zip_with. lia.
  - intros k k' cb Hk Hcb. apply lookup_seq in Hk as [-> _]. simpl.
    apply B_row_lookup in Hcb as [Hc' Hb'].
    unfold emit. rewrite Hi, Hc, Hv. simpl.
    rewrite B_row_offsets_lookup by lia. simpl.
    rewrite Hc', Hb'. done.
Qed.

Lemma expansion_sequential_spec A B :
  coo_wf A → coo_wf B → num_cols A = num_rows B →
  expansion_sequential A B = Some (partial_products A B).
Proof.
  intros HA HB Hdim. unfold expansion_sequential, partial_products.
  destruct HA as (HAr & HAc & HAv & _ & HAcol).
  match goal with |- mapM ?f ?l ≫= _ = _ =>
    assert (mapM f l = Some (product_chunk B <$>
      stream (row_indices A) (column_indices A) (values A))) as ->; [|done] end.
  apply mapM_Some, Forall2_fmap_r, Forall2_same_length_lookup. split.
  - unfold stream. rewrite length_seq, !length_zip_with. lia.
  - intros n n' e Hn He. apply lookup_seq in Hn as [-> _]. simpl.
    pose proof He as He'. apply stream_lookup in He' as (_ & Hc & _).
    assert (e.1.2 < num_rows B) as Hj.
    { rewrite <- Hdim. eapply (Forall_lookup_1 _ _ _ _ HAcol Hc). }
    rewrite Hc. simpl. rewrite B_row_lengths_lookup by done. simpl.
    by apply emit_chunk.
Qed.

Lemma expand_lengths A B I0 J0 V0 :
  expand A B = Some (I0, J0, V0) → length I0 = length J0 ∧ length V0 = length J0.
Proof.
  unfold expand. intros H.
  repeat match type of H with
  | (?o ≫= _) = Some _ => let E := fresh "E" in destruct o eqn:E; simpl in H; [|done]
  end.
  simplify_eq.
  repeat match goal with E : gather _ _ _ = Some _ |- _ => apply gather_length in E end.
  unfold transform. rewrite length_zip_with. lia.
Qed.

Lemma length_stream I0 J0 V0 :
  length I0 = length J0 → length V0 = length J0 →
  length (stream I0 J0 V0) = length J0.
Proof. intros. unfold stream. rewrite !length_zip_with. lia. Qed.

(** ** Sorting and merging on triplets *)

Lemma zip_by_col I0 J0 (V0 : list Z) :
  zip J0 (zip I0 V0) = by_col <$> stream I0 J0 V0.
Proof.
  unfold stream. revert J0 V0.
  induction I0 as [|i I0 IH]; intros [|j J0] [|v V0]; simpl; try done.
  f_equal. apply IH.
Qed.

Lemma zip_by_row (r : list (nat * (nat * Z))) :
  zip r.*2.*1 (zip r.*1 r.*2.*2) = by_row <$> r.
Proof. induction r as [|[j [i v]] r IH]; simpl; [done|]. f_equal. exact IH. Qed.

Lemma stream_unzip (s : list triplet) : stream s.*1.*1 s.*1.*2 s.*2 = s.
Proof.
  induction s as [|[[i j] v] s IH]; [done|].
  unfold stream in *. simpl. f_equal. exact IH.
Qed.

Lemma sort_IJ_stream I0 J0 V0 :
  sort_IJ I0 J0 V0
  = let s := sort_stream (stream I0 J0 V0) in (s.*1.*1, s.*1.*2, s.*2).
Proof.
  unfold sort_IJ, sort_by_key, sort_stream. cbv zeta iota beta.
  rewrite (zip_by_col I0 J0 V0), zip_by_row.
  set (r := sort_records _). clearbody r.
  f_equal; [f_equal|]; induction r as [|[i [j v]] r IH]; simpl; by f_equal.
Qed.

Lemma compress_stream (s : list triplet) :
  compress s.*1.*1 s.*1.*2 s.*2
  = let r := reduce_by_key s in (r.*1.*1, r.*1.*2, r.*2, length r).
Proof.
  unfold compress, unique_by_key. simpl.
  rewrite !zip_fst_snd. set (r := reduce_by_key s). clearbody r.
  rewrite !fmap_app, !resize_app by (by rewrite !length_fmap). done.
Qed.

Lemma multiply_general A B C I0 J0 V0 :
  num_entries A ≠ 0 → num_entries B ≠ 0 →
  expand A B = Some (I0, J0, V0) →
  multiply A B C
  = (Some (), coo_of_stream (num_rows A) (num_cols B) (normalize (stream I0 J0 V0))).
Proof.
  intros HA HB He. unfold multiply.
  rewrite bool_decide_eq_false_2 by lia.
  unfold mbind, M_bind, lift at 1. rewrite He.
  rewrite sort_IJ_stream. cbv beta iota zeta.
  rewrite compress_stream. cbv beta iota zeta.
  fold (normalize (stream I0 J0 V0)).
  set (r := normalize _). unfold coo_of_stream. clearbody r.
  simpl. done.
Qed.

Lemma multiply_fault A B C :
  num_entries A ≠ 0 → num_entries B ≠ 0 →
  expand A B = None →
  multiply A B C = (None, C).
Proof.
  intros HA HB He. unfold multiply.
  rewrite bool_decide_eq_false_2 by lia.
  unfold mbind, M_bind, lift at 1. by rewrite He.
Qed.

Lemma multiply_empty A B C :
  num_entries A = 0 ∨ num_entries B = 0 →
  multiply A B C = (Some (), coo_matrix_new (num_rows A) (num_cols B) 0).
Proof. intros H. unfold multiply. by rewrite bool_decide_eq_true_2. Qed.

(** ** The stable sort *)

Lemma insert_by_key_Permutation {V} k (v : V) l :
  insert_by_key k v l ≡ₚ (k, v) :: l.
Proof.
  induction l as [|[k' v'] l IH]; simpl; [done|].
  destruct (k <=? k'); [done|]. rewrite IH. apply Permutation_swap.
Qed.

Lemma sort_records_Permutation {V} (l : list (nat * V)) : sort_records l ≡ₚ l.
Proof.
  induction l as [|[k v] l IH]; simpl; [done|].
  by rewrite insert_by_key_Permutation, IH.
Qed.

Lemma insert_by_key_sorted {V} k (v : V) l :
  StronglySorted (λ x y, x.1 ≤ y.1) l →
  StronglySorted (λ x y, x.1 ≤ y.1) (insert_by_key k v l).
Proof.
  induction 1 as [|[k' v'] l Hl IH Hall]; simpl.
  - repeat constructor.
  - destruct (k <=? k') eqn:E.
    + apply Nat.leb_le in E. constructor; [by constructor|].
      constructor; [done|]. eapply Forall_impl; [done|]. simpl. intros; lia.
    + apply Nat.leb_gt in E. constructor; [done|].
      rewrite insert_by_key_Permutation. constructor; [simpl; lia|done].
Qed.

Lemma sort_records_sorted {V} (l : list (nat * V)) :
  StronglySorted (λ x y, x.1 ≤ y.1) (sort_records l).
Proof.
  induction l as [|[k v] l IH]; simpl; [constructor|].
  by apply insert_by_key_sorted.
Qed.

(** Stability: inserting a record whose secondary key is below all others
    keeps a list sorted by (primary, secondary) key. *)
Lemma insert_by_key_lex i (jv : nat * Z) l :
  StronglySorted (λ x y, lex_le (x.1, x.2.1) (y.1, y.2.1)) l →
  Forall (λ y, jv.1 ≤ y.2.1) l →
  StronglySorted (λ x y, lex_le (x.1, x.2.1) (y.1, y.2.1)) (insert_by_key i jv l).
Proof.
  induction 1 as [|[i' jv'] l Hl IH Hall]; intros Hj; simpl.
  - repeat constructor.
  - apply Forall_cons in Hj as [Hj1 Hj].
    destruct (i <=? i') eqn:E.
    + apply Nat.leb_le in E. constructor; [by constructor|].
      constructor.
      { unfold lex_le. simpl in *. lia. }
      rewrite Forall_forall in Hall, Hj. apply Forall_forall. intros y Hy.
      specialize (Hall y Hy). specialize (Hj y Hy).
      unfold lex_le in *. simpl in *. lia.
    + apply Nat.leb_gt in E. constructor; [by apply IH|].
      rewrite insert_by_key_Permutation. constructor; [|done].
      unfold lex_le. simpl. lia.
Qed.

Lemma sort_records_lex (l : list (nat * (nat * Z))) :
  StronglySorted (λ x y, x.2.1 ≤ y.2.1) l →
  StronglySorted (λ x y, lex_le (x.1, x.2.1) (y.1, y.2.1)) (sort_records l).
Proof.
  induction 1 as [|[i jv] l Hl IH Hall]; simpl; [constructor|].
  apply insert_by_key_lex; [done|].
  by rewrite sort_records_Permutation.
Qed.

Lemma sort_stream_Permutation s : sort_stream s ≡ₚ s.
Proof.
  unfold sort_stream. rewrite !sort_records_Permutation.
  rewrite <- !list_fmap_compose.
  rewrite <- (list_fmap_id s) at 2.
  apply reflexive_eq, list_fmap_ext. by intros _ [[i j] v] _.
Qed.

Lemma sort_stream_sorted s :
  StronglySorted (λ x y : triplet, lex_le x.1 y.1) (sort_stream s).
Proof.
  unfold sort_stream.
  apply (StronglySorted_fmap of_row_record
           (λ x y : nat * (nat * Z), lex_le (x.1, x.2.1) (y.1, y.2.1))
           (λ x y : triplet, lex_le x.1 y.1)); [done|].
  apply sort_records_lex.
  apply (StronglySorted_fmap by_row
           (λ x y : nat * (nat * Z), x.1 ≤ y.1)
           (λ x y : nat * (nat * Z), x.2.1 ≤ y.2.1)); [done|].
  apply sort_records_sorted.
Qed.

(** ** Merging duplicates *)

Lemma lex_le_lt_trans x y z : lex_lt x y → lex_le y z → lex_lt x z.
Proof. unfold lex_lt, lex_le. lia. Qed.

Lemma lex_le_neq x y : lex_le x y → x ≠ y → lex_lt x y.
Proof.
  destruct x as [a b], y as [c d]. unfold lex_lt, lex_le. simpl.
  intros H Hne. destruct (decide (a = c)) as [->|]; [|lia].
  destruct (decide (b = d)) as [->|]; [done|lia].
Qed.

Lemma reduce_run_keys (P : nat * nat → Prop) k acc l :
  P k → Forall (λ t : triplet, P t.1) l →
  Forall (λ t : triplet, P t.1) (reduce_run k acc l).
Proof.
  intros Hk Hl. revert k acc Hk.
  induction Hl as [|[k' v'] l Hk' Hl IH]; intros k acc Hk; simpl.
  - by constructor.
  - case_bool_decide; [by apply IH|]. constructor; [done|by apply IH].
Qed.

Lemma reduce_run_sorted l : ∀ k acc,
  Forall (λ t : triplet, lex_le k t.1) l →
  StronglySorted (λ x y : triplet, lex_le x.1 y.1) l →
  StronglySorted (λ x y : triplet, lex_lt x.1 y.1) (reduce_run k acc l).
Proof.
  induction l as [|[k' v'] l IH]; intros k acc Hk Hs; simpl.
  - repeat constructor.
  - apply Forall_cons in Hk as [Hk' Hk]. apply StronglySorted_inv in Hs as [Hs Hall].
    case_bool_decide as Hkk; [by apply IH|].
    constructor; [by apply IH|].
    assert (lex_lt k k') as Hlt by (by apply lex_le_neq).
    apply (reduce_run_keys (lex_lt k)); [done|].
    eapply Forall_impl; [exact Hall|]. simpl. intros t Ht.
    by eapply lex_le_lt_trans.
Qed.

Lemma reduce_by_key_sorted s :
  StronglySorted (λ x y : triplet, lex_le x.1 y.1) s →
  StronglySorted (λ x y : triplet, lex_lt x.1 y.1) (reduce_by_key s).
Proof.
  destruct s as [|[k v] s]; simpl; [constructor|].
  intros [Hs Hall]%StronglySorted_inv. by apply reduce_run_sorted.
Qed.

Lemma normalize_sorted s :
  StronglySorted (λ x y : triplet, lex_lt x.1 y.1) (normalize s).
Proof. apply reduce_by_key_sorted, sort_stream_sorted. Qed.

(** ** Entry sums *)

Lemma entry_sum_app s1 s2 i j :
  entry_sum (s1 ++ s2) i j = (entry_sum s1 i j + entry_sum s2 i j)%Z.
Proof. induction s1 as [|t s1 IH]; simpl; [done|]. case_bool_decide; lia. Qed.

Global Instance entry_sum_Permutation :
  Proper ((≡ₚ) ==> (=) ==> (=) ==> (=)) entry_sum.
Proof.
  intros s1 s2 Hs i ? <- j ? <-.
  induction Hs as [|t s1 s2 Hs IH|t1 t2 s|s1 s2 s3 H1 IH1 H2 IH2]; simpl.
  - done.
  - by rewrite IH.
  - repeat case_bool_decide; lia.
  - congruence.
Qed.

Lemma entry_sum_reduce_run l : ∀ k acc i j,
  entry_sum (reduce_run k acc l) i j = entry_sum ((k, acc) :: l) i j.
Proof.
  induction l as [|[k' v'] l IH]; intros k acc i j; [done|].
  cbn [reduce_run]. case_bool_decide as Hkk.
  - subst k'. rewrite IH. simpl. repeat case_bool_decide; lia.
  - cbn [entry_sum]. rewrite IH. done.
Qed.

Lemma entry_sum_reduce_by_key s i j :
  entry_sum (reduce_by_key s) i j = entry_sum s i j.
Proof. destruct s as [|[k v] s]; [done|]. apply entry_sum_reduce_run. Qed.

Lemma entry_sum_normalize s i j : entry_sum (normalize s) i j = entry_sum s i j.
Proof.
  unfold normalize. by rewrite entry_sum_reduce_by_key, sort_stream_Permutation.
Qed.

(** ** Row slices of a row-sorted matrix *)

Lemma count_lt_0 k rs : Forall (λ y, k ≤ y) rs → count_lt k rs = 0.
Proof.
  unfold count_lt. induction 1 as [|y rs Hy H IH]; [done|].
  rewrite filter_cons_False by lia. done.
Qed.

Lemma count_eq_0 k rs : Forall (λ y, k < y) rs → count_eq k rs = 0.
Proof.
  unfold count_eq. induction 1 as [|y rs Hy H IH]; [done|].
  rewrite filter_cons_False by lia. done.
Qed.

Lemma filter_row_nil {X} k rs (xs : list X) :
  Forall (λ y, k < y) rs → filter (λ p : nat * X, p.1 = k) (zip rs xs) = [].
Proof.
  intros H. revert xs. induction H as [|y rs Hy H IH]; intros [|x xs]; try done.
  simpl. rewrite filter_cons_False by (simpl; clear -Hy; lia). apply IH.
Qed.

Lemma count_lt_cons k r rs :
  count_lt k (r :: rs) = if decide (r < k) then S (count_lt k rs) else count_lt k rs.
Proof. unfold count_lt. rewrite filter_cons. by case_decide. Qed.

Lemma count_eq_cons k r rs :
  count_eq k (r :: rs) = if decide (r = k) then S (count_eq k rs) else count_eq k rs.
Proof. unfold count_eq. rewrite filter_cons. by case_decide. Qed.

Lemma sorted_slice {X} k rows : ∀ xs : list X,
  StronglySorted le rows →
  take (count_eq k rows) (drop (count_lt k rows) xs)
  = (filter (λ p : nat * X, p.1 = k) (zip rows xs)).*2.
Proof.
  induction rows as [|r rs IH]; intros xs Hs.
  { by rewrite take_0. }
  apply StronglySorted_inv in Hs as [Hs Hall].
  destruct xs as [|x xs].
  { by rewrite drop_nil, take_nil. }
  destruct (lt_eq_lt_dec r k) as [[Hlt|Heq]|Hgt].
  - rewrite count_lt_cons, count_eq_cons. simpl zip.
    rewrite filter_cons_False by (simpl; lia).
    rewrite (decide_True (P := r < k)), (decide_False (P := r = k)) by lia.
    simpl. by apply IH.
  - subst r. rewrite count_lt_cons, count_eq_cons. simpl zip.
    rewrite filter_cons_True by done.
    rewrite (decide_False (P := k < k)), (decide_True (P := k = k)) by lia.
    simpl. f_equal. rewrite <- IH by done.
    rewrite (count_lt_0 k rs) by done. done.
  - assert (Forall (λ y, k < y) (r :: rs)) as Hk.
    { constructor; [done|]. eapply Forall_impl; [done|]. simpl. lia. }
    rewrite count_eq_0, filter_row_nil by done. by rewrite take_0.
Qed.

Lemma row_sum_filter k j rows : ∀ cols (vals : list Z),
  row_sum (filter (λ p : nat * (nat * Z), p.1 = k) (zip rows (zip cols vals))).*2 j
  = entry_sum (stream rows cols vals) k j.
Proof.
  unfold stream.
  induction rows as [|r rows IH]; intros [|c cols] [|v vals]; try done.
  simpl zip. rewrite filter_cons. simpl. 
  case_decide as Hr; simpl in Hr.
  - subst r. csimpl. rewrite IH.
    repeat case_bool_decide; simplify_eq; try done.
  - rewrite IH. rewrite bool_decide_eq_false_2; [done|]. by intros [= -> ->].
Qed.

Lemma B_row_sum B k j :
  row_sorted B → row_sum (B_row B k) j = coo_entry B k j.
Proof.
  intros Hs. unfold B_row, B_slice, coo_entry, coo_triplets.
  rewrite sorted_slice by (by apply (Sorted_StronglySorted _)).
  apply row_sum_filter.
Qed.

(** ** The expanded stream against the dense product *)

Lemma entry_sum_scaled (i0 : nat) (a : Z) (l : list (nat * Z)) i j :
  entry_sum ((λ cb, (i0, cb.1, (a * cb.2)%Z)) <$> l) i j
  = if bool_decide (i0 = i) then (a * row_sum l j)%Z else 0%Z.
Proof.
  induction l as [|[c b] l IH]; csimpl.
  - case_bool_decide; lia.
  - rewrite IH. repeat case_bool_decide; simplify_eq; try done; lia.
Qed.

Lemma entry_sum_partial_products B ents i j :
  row_sorted B →
  entry_sum (concat (product_chunk B <$> ents)) i j
  = row_dot ents i (λ k, coo_entry B k j).
Proof.
  intros Hs. induction ents as [|e ents IH]; csimpl; [done|].
  rewrite entry_sum_app, IH. unfold product_chunk.
  rewrite entry_sum_scaled, B_row_sum by done.
  case_bool_decide; lia.
Qed.

Lemma dense_dot_zero g n : dense_dot (λ _, 0%Z) g n = 0%Z.
Proof. induction n as [|n IH]; simpl; [done|]. rewrite IH. lia. Qed.

Lemma dense_dot_add a b g n :
  dense_dot (λ k, (a k + b k)%Z) g n = (dense_dot a g n + dense_dot b g n)%Z.
Proof. induction n as [|n IH]; simpl; [done|]. rewrite IH. lia. Qed.

Lemma dense_dot_delta (c : nat) (v : Z) g n :
  dense_dot (λ k, if bool_decide (c = k) then v else 0%Z) g n
  = if bool_decide (c < n) then (v * g c)%Z else 0%Z.
Proof.
  induction n as [|n IH]; [done|].
  cbn [dense_dot]. rewrite IH. repeat case_bool_decide; subst; try lia.
Qed.

Lemma dense_dot_ext a a' g n :
  (∀ k, k < n → a k = a' k) → dense_dot a g n = dense_dot a' g n.
Proof.
  induction n as [|n IH]; intros H; simpl; [done|].
  rewrite IH, H by (intros; auto with lia). done.
Qed.

Lemma dense_dot_stream ents i g n :
  Forall (λ e : triplet, e.1.2 < n) ents →
  dense_dot (entry_sum ents i) g n = row_dot ents i g.
Proof.
  induction 1 as [|[[r c] v] ents He H IH].
  - apply dense_dot_zero.
  - simpl in He. cbn [row_dot fst snd]. rewrite <- IH.
    case_bool_decide as Hr.
    + subst r.
      rewrite (dense_dot_ext _ (λ k, ((if bool_decide (c = k) then v else 0)
                                      + entry_sum ents i k)%Z)).
      * rewrite dense_dot_add, dense_dot_delta.
        by rewrite bool_decide_eq_true_2 by done.
      * intros k _. simpl. repeat case_bool_decide; simplify_eq; try done; lia.
    + apply dense_dot_ext. intros k _. simpl.
      rewrite bool_decide_eq_false_2; [done|]. by intros [= -> ->].
Qed.

(** ** The whole pipeline *)

Lemma sort_merge_stream I0 J0 V0 :
  sort_merge I0 J0 V0
  = let r := normalize (stream I0 J0 V0) in (r.*1.*1, r.*1.*2, r.*2, length r).
Proof.
  unfold sort_merge. rewrite sort_IJ_stream. cbv beta iota zeta.
  by rewrite compress_stream.
Qed.

Lemma partial_products_empty A B :
  num_entries A = 0 ∨ num_entries B = 0 → coo_wf A → coo_wf B →
  partial_products A B = [].
Proof.
  intros [H|H] (HAr & HAc & HAv & _) (HBr & HBc & HBv & _); unfold partial_products.
  - rewrite H in HAr. apply nil_length_inv in HAr. by rewrite HAr.
  - rewrite H in HBr. apply nil_length_inv in HBr.
    induction (stream _ _ _) as [|e s IH]; csimpl; [done|].
    rewrite IH. unfold product_chunk, B_row, B_slice. rewrite HBr. done.
Qed.

Lemma within_index_range_sums A B :
  length (column_indices A) = num_entries A →
  Forall (λ j, j < num_rows B) (column_indices A) →
  length (row_indices B) = num_entries B →
  within_index_range A B → sums_fit A B.
Proof.
  intros HAc Hcol HBr (HnA & HnB & seg & Hseg & Hsum).
  rewrite segment_lengths_spec in Hseg by done.
  injection Hseg as <-. split; [done|].
  apply Forall_forall. intros j _. right.
  rewrite <- count_lt_S. pose proof (count_lt_le_length (S j) (row_indices B)). lia.
Qed.

Lemma within_index_range_sums_fit A B :
  valid_operands A B → within_index_range A B → sums_fit A B.
Proof.
  intros ((HAr & HAc & HAv & _ & HAcol) & (HBr & _) & Hdim).
  apply within_index_range_sums; [done| |done]. by rewrite <- Hdim.
Qed.

Lemma sums_fit_zero A B :
  Forall (λ j, count_eq j (row_indices B) = 0) (column_indices A) → sums_fit A B.
Proof.
  intros Hz. split.
  - unfold row_counts. rewrite (sum_list_fmap_same 0) by done. lia.
  - eapply Forall_impl; [exact Hz|]. simpl. tauto.
Qed.

Lemma multiply_spec_sums A B C :
  valid_operands A B → sums_fit A B →
  multiply A B C
  = (Some (), coo_of_stream (num_rows A) (num_cols B)
                (normalize (partial_products A B))).
Proof.
  intros (HA & HB & Hdim) Hfit.
  destruct (decide (num_entries A = 0 ∨ num_entries B = 0)) as [He|He].
  - rewrite multiply_empty by done. by rewrite partial_products_empty.
  - destruct (expand_stream A B) as (I0 & J0 & V0 & Hex & Hs); [done..|lia|done|].
    rewrite (multiply_general A B C I0 J0 V0) by (done || lia).
    by rewrite Hs.
Qed.

Lemma multiply_spec A B C :
  valid_operands A B → within_index_range A B →
  multiply A B C
  = (Some (), coo_of_stream (num_rows A) (num_cols B)
                (normalize (partial_products A B))).
Proof.
  intros Hv Hr. apply multiply_spec_sums; [done|].
  by apply within_index_range_sums_fit.
Qed.

Lemma coo_entry_of_stream r c s i j :
  coo_entry (coo_of_stream r c s) i j = entry_sum s i j.
Proof.
  unfold coo_entry, coo_triplets, coo_of_stream. simpl.
  pose proof (stream_unzip s) as H. unfold stream in H. by rewrite H.
Qed.

Lemma coo_of_stream_keys r c s :
  zip (row_indices (coo_of_stream r c s)) (column_indices (coo_of_stream r c s)) = s.*1.
Proof. simpl. apply zip_fst_snd. Qed.

Lemma entry_sum_product A B i j :
  valid_operands A B → row_sorted B →
  entry_sum (partial_products A B) i j
  = dense_multiply (num_cols A) (coo_entry A) (coo_entry B) i j.
Proof.
  intros (HA & HB & Hdim) Hs. unfold partial_products, dense_multiply, coo_entry.
  rewrite entry_sum_partial_products by done.
  symmetry. apply dense_dot_stream.
  destruct HA as (HAr & HAc & HAv & _ & HAcol).
  apply Forall_lookup. intros n e He.
  apply stream_lookup in He as (_ & Hc & _).
  apply (Forall_lookup_1 _ _ _ _ HAcol Hc).
Qed.

(** ** Multiplication by the identity *)

Lemma count_lt_seq j n : count_lt j (seq 0 n) = j `min` n.
Proof.
  unfold count_lt. induction n as [|n IH]; [by rewrite Nat.min_0_r|].
  rewrite seq_S, filter_app, length_app, IH. simpl.
  rewrite filter_cons. case_decide; simpl; lia.
Qed.

Lemma count_eq_seq j n : count_eq j (seq 0 n) = if decide (j < n) then 1 else 0.
Proof.
  unfold count_eq. induction n as [|n IH]; [done|].
  rewrite seq_S, filter_app, length_app, IH. simpl.
  rewrite filter_cons. repeat case_decide; simpl; lia.
Qed.

Lemma take_1_drop {X} (l : list X) j x : l !! j = Some x → take 1 (drop j l) = [x].
Proof.
  intros H. rewrite <- (take_drop_middle l j x H).
  rewrite drop_app_length'; [done|].
  rewrite length_take. apply lookup_lt_Some in H. lia.
Qed.

Lemma B_row_identity n j : j < n → B_row (identity n) j = [(j, 1%Z)].
Proof.
  intros Hj. unfold B_row, B_slice. simpl.
  rewrite count_lt_seq, count_eq_seq, decide_True by done.
  rewrite Nat.min_l by lia. apply take_1_drop.
  apply lookup_zip_with_Some. exists j, 1%Z.
  rewrite lookup_seq, lookup_replicate. auto.
Qed.

Lemma partial_products_identity A :
  coo_wf A → partial_products A (identity (num_cols A)) = coo_triplets A.
Proof.
  intros (HAr & HAc & HAv & _ & HAcol). unfold partial_products, coo_triplets.
  fold (stream (row_indices A) (column_indices A) (values A)).
  assert (Forall (λ e : triplet, e.1.2 < num_cols A)
            (stream (row_indices A) (column_indices A) (values A))) as H.
  { apply Forall_lookup. intros n e He. apply stream_lookup in He as (_ & Hc & _).
    apply (Forall_lookup_1 _ _ _ _ HAcol Hc). }
  induction H as [|[[i j] v] s Hj H IH]; csimpl; [done|].
  rewrite IH. unfold product_chunk. simpl in *. rewrite B_row_identity by done.
  simpl. by rewrite Z.mul_1_r.
Qed.

Lemma identity_wf n : coo_wf (identity n).
Proof.
  unfold coo_wf, identity. simpl. rewrite length_seq, length_replicate.
  split_and!; try done; apply Forall_seq; intros; lia.
Qed.

Lemma StronglySorted_lex_lt_NoDup (l : list (nat * nat)) :
  StronglySorted lex_lt l → NoDup l.
Proof.
  induction 1 as [|x l Hl IH Hall]; constructor; [|done].
  intros Hx. rewrite Forall_forall in Hall. specialize (Hall x Hx).
  unfold lex_lt in Hall. lia.
Qed.

Lemma multiply_result A B C :
  num_entries A ≠ 0 → num_entries B ≠ 0 →
  multiply A B C
  = match expand A B with
    | Some (I0, J0, V0) =>
        (Some (), coo_of_stream (num_rows A) (num_cols B) (normalize (stream I0 J0 V0)))
    | None => (None, C)
    end.
Proof.
  intros HA HB. destruct (expand A B) as [[[I0 J0] V0]|] eqn:He.
  - by apply multiply_general.
  - by apply multiply_fault.
Qed.

(** ** The normal form of a triplet stream *)

Lemma reduce_run_key_set k acc l x :
  x ∈ (reduce_run k acc l).*1 ↔ x = k ∨ x ∈ l.*1.
Proof.
  revert k acc. induction l as [|[k' v'] l IH]; intros k acc; simpl.
  - rewrite list_elem_of_singleton, elem_of_nil. tauto.
  - rewrite elem_of_cons. case_bool_decide as Hk.
    + subst k'. rewrite IH. tauto.
    + csimpl. rewrite elem_of_cons, IH. tauto.
Qed.

Lemma reduce_by_key_key_set s x : x ∈ (reduce_by_key s).*1 ↔ x ∈ s.*1.
Proof.
  destruct s as [|[k v] s]; [done|]. simpl.
  rewrite reduce_run_key_set, elem_of_cons. tauto.
Qed.

Lemma normalize_key_set s x : x ∈ (normalize s).*1 ↔ x ∈ s.*1.
Proof.
  unfold normalize. rewrite reduce_by_key_key_set.
  by rewrite sort_stream_Permutation.
Qed.

Lemma entry_sum_absent s i j : (i, j) ∉ s.*1 → entry_sum s i j = 0%Z.
Proof.
  induction s as [|[k v] s IH]; [done|]. csimpl. intros H.
  apply not_elem_of_cons in H as [Hk H].
  rewrite bool_decide_eq_false_2 by done. by apply IH.
Qed.

Lemma lex_lt_irrefl x : ¬ lex_lt x x.
Proof. unfold lex_lt. lia. Qed.

Lemma lex_lt_asym x y : lex_lt x y → lex_lt y x → False.
Proof. unfold lex_lt. lia. Qed.

Lemma sorted_head_absent (t : triplet) s :
  Forall (λ y : triplet, lex_lt t.1 y.1) s → t.1 ∉ s.*1.
Proof.
  intros H Hin. apply list_elem_of_fmap in Hin as (y & Hy & Hin).
  rewrite Forall_forall in H. specialize (H y Hin). rewrite <- Hy in H.
  by apply lex_lt_irrefl in H.
Qed.

(** Two strictly sorted streams with the same coordinates and the same
    value at every coordinate are the same list. *)
Lemma sorted_stream_ext (r1 r2 : list triplet) :
  StronglySorted (λ x y : triplet, lex_lt x.1 y.1) r1 →
  StronglySorted (λ x y : triplet, lex_lt x.1 y.1) r2 →
  (∀ k, k ∈ r1.*1 ↔ k ∈ r2.*1) →
  (∀ i j, entry_sum r1 i j = entry_sum r2 i j) →
  r1 = r2.
Proof.
  intros H1. revert r2. induction H1 as [|[k1 v1] r1 H1 IH Hall1]; intros r2 H2 Hk Hv.
  - destruct r2 as [|[k2 v2] r2]; [done|].
    specialize (Hk k2). csimpl in Hk. rewrite elem_of_nil, elem_of_cons in Hk.
    destruct (proj2 Hk). by left.
  - destruct H2 as [|[k2 v2] r2 H2 Hall2].
    { specialize (Hk k1). csimpl in Hk. rewrite elem_of_nil, elem_of_cons in Hk.
      destruct (proj1 Hk). by left. }
    pose proof (sorted_head_absent _ _ Hall1) as Ha1.
    pose proof (sorted_head_absent _ _ Hall2) as Ha2. simpl in Ha1, Ha2.
    assert (k1 = k2) as <-.
    { pose proof (proj1 (Hk k1)) as Hk1. pose proof (proj2 (Hk k2)) as Hk2.
      csimpl in *. rewrite !elem_of_cons in Hk1, Hk2.
      destruct Hk1 as [?|Hin1]; [by left|done|].
      destruct Hk2 as [?|Hin2]; [by left|done|].
      apply list_elem_of_fmap in Hin1 as (y1 & -> & Hy1).
      apply list_elem_of_fmap in Hin2 as (y2 & -> & Hy2).
      rewrite Forall_forall in Hall1, Hall2.
      specialize (Hall1 y2 Hy2). specialize (Hall2 y1 Hy1). simpl in *.
      destruct (lex_lt_asym _ _ Hall1 Hall2). }
    assert (v1 = v2) as <-.
    { specialize (Hv k1.1 k1.2). simpl in Hv. destruct k1 as [i j]. simpl in *.
      rewrite !bool_decide_eq_true_2 in Hv by done.
      rewrite !entry_sum_absent in Hv by done. lia. }
    f_equal. apply IH; [done| |].
    + intros k. specialize (Hk k). csimpl in Hk. rewrite !elem_of_cons in Hk.
      split; intros Hin.
      * destruct (proj1 Hk (or_intror Hin)) as [->|]; [done|done].
      * destruct (proj2 Hk (or_intror Hin)) as [->|]; [done|done].
    + intros i j. specialize (Hv i j). simpl in Hv.
      case_bool_decide; lia.
Qed.

Lemma normalize_ext (s1 s2 : list triplet) :
  (∀ k, k ∈ s1.*1 ↔ k ∈ s2.*1) →
  (∀ i j, entry_sum s1 i j = entry_sum s2 i j) →
  normalize s1 = normalize s2.
Proof.
  intros Hk Hv. apply sorted_stream_ext; try apply normalize_sorted.
  - intros k. by rewrite !normalize_key_set.
  - intros i j. by rewrite !entry_sum_normalize.
Qed.

Lemma normalize_Permutation (s1 s2 : list triplet) :
  s1 ≡ₚ s2 → normalize s1 = normalize s2.
Proof.
  intros H. apply normalize_ext.
  - intros k. by rewrite H.
  - intros i j. by rewrite H.
Qed.

Lemma normalize_idemp s : normalize (normalize s) = normalize s.
Proof.
  apply normalize_ext.
  - intros k. apply normalize_key_set.
  - intros i j. apply entry_sum_normalize.
Qed.

(** ** The coordinates of the partial products *)

Lemma elem_of_concat_fmap {X Y} (f : X → list Y) l y :
  y ∈ concat (f <$> l) ↔ ∃ x, x ∈ l ∧ y ∈ f x.
Proof.
  induction l as [|x l IH]; csimpl.
  - rewrite elem_of_nil. split; [done|]. intros (x & Hx & _). by apply elem_of_nil in Hx.
  - rewrite elem_of_app, IH. split.
    + intros [H|(x' & Hx' & H)]; [exists x|exists x']; split; try done;
        [by left|by right].
    + intros (x' & [->|Hx']%elem_of_cons & H); [by left|right; eauto].
Qed.

Lemma elem_of_partial_products A B (t : triplet) :
  t ∈ partial_products A B ↔
  ∃ (e : triplet) (cb : nat * Z),
    e ∈ stream (row_indices A) (column_indices A) (values A) ∧
    cb ∈ B_row B e.1.2 ∧ t = (e.1.1, cb.1, (e.2 * cb.2)%Z).
Proof.
  unfold partial_products. rewrite elem_of_concat_fmap. unfold product_chunk.
  split.
  - intros (e & He & (cb & -> & Hcb)%list_elem_of_fmap). eauto.
  - intros (e & cb & He & Hcb & ->). exists e. split; [done|].
    apply list_elem_of_fmap. eauto.
Qed.

Lemma elem_of_stream I0 J0 V0 (t : triplet) :
  t ∈ stream I0 J0 V0 → t.1.1 ∈ I0 ∧ t.1.2 ∈ J0 ∧ t.2 ∈ V0.
Proof.
  intros (n & Hn)%list_elem_of_lookup. apply stream_lookup in Hn as (? & ? & ?).
  split_and!; by eapply list_elem_of_lookup_2.
Qed.

Lemma elem_of_B_row B k (cb : nat * Z) :
  cb ∈ B_row B k → cb.1 ∈ column_indices B ∧ cb.2 ∈ values B.
Proof.
  intros (n & Hn)%list_elem_of_lookup. apply B_row_lookup in Hn as [? ?].
  split; by eapply list_elem_of_lookup_2.
Qed.

Lemma zip_nested (rows cols : list nat) (vals : list Z) :
  zip rows (zip cols vals)
  = (λ t : triplet, (t.1.1, (t.1.2, t.2))) <$> stream rows cols vals.
Proof.
  unfold stream. revert cols vals.
  induction rows as [|r rows IH]; intros [|c cols] [|v vals]; simpl; try done.
  f_equal. apply IH.
Qed.

Lemma elem_of_B_row_sorted B k (cb : nat * Z) :
  row_sorted B →
  cb ∈ B_row B k ↔ (k, cb.1, cb.2) ∈ coo_triplets B.
Proof.
  intros Hs. unfold B_row, B_slice, coo_triplets.
  rewrite sorted_slice by (by apply (Sorted_StronglySorted _)).
  rewrite zip_nested. fold (stream (row_indices B) (column_indices B) (values B)).
  rewrite list_elem_of_fmap. split.
  - intros ([k' cb'] & -> & [Hk Hin]%list_elem_of_filter). simpl in *. subst k'.
    apply list_elem_of_fmap in Hin as ([[r c] v] & [= -> ->] & Hin). done.
  - intros Hin. exists (k, cb). split; [done|].
    apply list_elem_of_filter. split; [done|].
    apply list_elem_of_fmap. exists (k, cb.1, cb.2). by destruct cb.
Qed.

Lemma elem_of_keys (s : list triplet) (k : nat * nat) :
  k ∈ s.*1 ↔ ∃ v, (k, v) ∈ s.
Proof.
  rewrite list_elem_of_fmap. split.
  - intros ([k' v] & -> & H). eauto.
  - intros (v & H). by exists (k, v).
Qed.

Lemma coo_keys M :
  coo_wf M → zip (row_indices M) (column_indices M) = (coo_triplets M).*1.
Proof.
  intros (Hr & Hc & Hv & _). unfold coo_triplets.
  rewrite fst_zip; [done|]. rewrite length_zip_with. lia.
Qed.

Lemma partial_products_key_set A B i j :
  row_sorted B →
  (i, j) ∈ (partial_products A B).*1 ↔
  ∃ k, (i, k) ∈ (coo_triplets A).*1 ∧ (k, j) ∈ (coo_triplets B).*1.
Proof.
  intros Hs. rewrite elem_of_keys. split.
  - intros (v & (e & cb & He & Hcb & Ht)%elem_of_partial_products).
    inversion Ht; subst; clear Ht. exists e.1.2. split.
    + apply elem_of_keys. exists e.2. by destruct e as [[? ?] ?].
    + apply elem_of_keys. exists cb.2. by apply elem_of_B_row_sorted.
  - intros (k & (a & Ha)%elem_of_keys & (b & Hb)%elem_of_keys).
    exists (a * b)%Z. apply elem_of_partial_products.
    exists (i, k, a), (j, b). split_and!; [done| |done].
    by apply elem_of_B_row_sorted.
Qed.

Lemma partial_products_in_bounds A B :
  coo_wf A → coo_wf B →
  Forall (λ k : nat * nat, k.1 < num_rows A ∧ k.2 < num_cols B)
         (partial_products A B).*1.
Proof.
  intros (_ & _ & _ & HAr & _) (_ & _ & _ & _ & HBc).
  apply Forall_fmap, Forall_forall.
  intros t (e & cb & He & Hcb & ->)%elem_of_partial_products. simpl.
  apply elem_of_stream in He as (Hi & _ & _).
  apply elem_of_B_row in Hcb as [Hc _].
  rewrite Forall_forall in HAr, HBc. auto.
Qed.

Lemma normalize_in_bounds (P : nat * nat → Prop) s :
  Forall P s.*1 → Forall P (normalize s).*1.
Proof.
  rewrite !Forall_forall. intros H k Hk. apply H. by apply normalize_key_set.
Qed.

Lemma length_reduce_run l : ∀ k acc, length (reduce_run k acc l) ≤ S (length l).
Proof.
  induction l as [|[k' v'] l IH]; intros k acc; simpl; [done|].
  case_bool_decide; simpl; [specialize (IH k (acc + v')%Z)|specialize (IH k' v')]; lia.
Qed.

Lemma length_normalize s : length (normalize s) ≤ length s.
Proof.
  unfold normalize. rewrite <- (Permutation_length (sort_stream_Permutation s)).
  destruct (sort_stream s) as [|[k v] r]; [done|]. apply length_reduce_run.
Qed.

Lemma coo_of_stream_wf r c s :
  Forall (λ k : nat * nat, k.1 < r ∧ k.2 < c) s.*1 → coo_wf (coo_of_stream r c s).
Proof.
  intros H. unfold coo_wf, coo_of_stream. simpl. rewrite !length_fmap.
  split_and!; try done; apply Forall_fmap; eapply Forall_impl; try exact H;
    simpl; intros k [? ?]; done.
Qed.

Lemma coo_of_stream_row_sorted r c s :
  StronglySorted (λ x y : triplet, lex_lt x.1 y.1) s →
  row_sorted (coo_of_stream r c s).
Proof.
  intros H. unfold row_sorted, coo_of_stream. simpl.
  apply StronglySorted_Sorted.
  rewrite <- list_fmap_compose.
  apply (StronglySorted_fmap _ (λ x y : triplet, lex_lt x.1 y.1)); [|done].
  intros x y. unfold lex_lt. simpl. lia.
Qed.

(** ** Size of the result *)

Lemma length_partial_products A B :
  coo_wf A → coo_wf B →
  length (partial_products A B) = sum_list (row_counts A B).
Proof.
  intros (HAr & HAc & HAv & _) (HBr & HBc & HBv & _).
  unfold partial_products, row_counts.
  rewrite (cols_of_stream A HAr HAc HAv) at 2.
  induction (stream _ _ _) as [|e s IH]; csimpl; [done|].
  rewrite length_app, IH. f_equal.
  unfold product_chunk, B_row. rewrite length_fmap, length_B_slice; [done|].
  rewrite length_zip_with. lia.
Qed.

Lemma NoDup_in_box (l : list (nat * nat)) r c :
  NoDup l → Forall (λ k : nat * nat, k.1 < r ∧ k.2 < c) l → length l ≤ r * c.
Proof.
  intros Hnd Hall.
  assert (r * c = length (list_prod (seq 0 r) (seq 0 c))) as ->
    by (by rewrite length_prod, !length_seq).
  apply submseteq_length, NoDup_submseteq; [done|].
  intros [i j] Hin. rewrite Forall_forall in Hall. destruct (Hall _ Hin) as [Hi Hj].
  apply list_elem_of_In, in_prod; apply list_elem_of_In, elem_of_seq; simpl in *; lia.
Qed.

Lemma output_total A B :
  valid_operands A B → num_entries A ≠ 0 →
  sum_list (row_counts A B) ≤ index_max →
  (seg ← segment_lengths A B;
   ptr ← output_ptr (num_entries A) seg;
   ptr !! num_entries A) = Some (sum_list (row_counts A B)).
Proof.
  intros ((HAr & HAc & HAv & _ & HAcol) & HB & Hdim) Hn Hsum.
  rewrite segment_lengths_spec by (by rewrite <- ?Hdim). simpl.
  fold (row_counts A B).
  assert (length (row_counts A B) = num_entries A) as Hlen.
  { unfold row_counts. by rewrite length_fmap. }
  rewrite output_ptr_spec by done. simpl.
  rewrite lookup_app_r by (rewrite length_prefix_sums; lia).
  by rewrite length_prefix_sums, Hlen, Nat.sub_diag.
Qed.

Lemma coo_entry_Permutation M M' i j :
  coo_triplets M' ≡ₚ coo_triplets M → coo_entry M' i j = coo_entry M i j.
Proof. intros H. unfold coo_entry. by rewrite H. Qed.

Lemma dense_multiply_ext n a a' b b' i j :
  (∀ i k, a i k = a' i k) → (∀ k j, b k j = b' k j) →
  dense_multiply n a b i j = dense_multiply n a' b' i j.
Proof.
  intros Ha Hb. unfold dense_multiply.
  induction n as [|n IH]; simpl; [done|]. by rewrite IH, Ha, Hb.
Qed.

Lemma coo_of_stream_triplets r c s : coo_triplets (coo_of_stream r c s) = s.
Proof. unfold coo_triplets, coo_of_stream. simpl. apply (stream_unzip s). Qed.

Lemma sort_merge_normal_form s :
  StronglySorted (λ x y : triplet, lex_lt x.1 y.1) s →
  sort_merge s.*1.*1 s.*1.*2 s.*2 = (s.*1.*1, s.*1.*2, s.*2, length s).
Proof.
  intros Hs. rewrite sort_merge_stream. cbv zeta. rewrite stream_unzip.
  assert (normalize s = s) as ->; [|done].
  apply sorted_stream_ext; [apply normalize_sorted|done|..].
  - intros k. apply normalize_key_set.
  - intros i j. apply entry_sum_normalize.
Qed.

(** ** The identity as left operand *)




Lemma key_row_in_bounds M i j :
  coo_wf M → (i, j) ∈ (coo_triplets M).*1 → i < num_rows M ∧ j < num_cols M.
Proof.
  intros HM. pose proof HM as (_ & _ & _ & Hr & Hc).
  rewrite <- coo_keys by done.
  intros (n & Hn)%list_elem_of_lookup.
  apply lookup_zip_with_Some in Hn as (i' & j' & [= -> ->] & Hi & Hj).
  split; [eapply (Forall_lookup_1 _ _ _ _ Hr Hi)|eapply (Forall_lookup_1 _ _ _ _ Hc Hj)].
Qed.


(** ** Products of three matrices *)

Lemma dense_dot_scale (c : Z) f g n :
  dense_dot (λ k, (c * f k)%Z) g n = (c * dense_dot f g n)%Z.
Proof. induction n as [|n IH]; simpl; [lia|]. rewrite IH. lia. Qed.

Lemma dense_dot_assoc (a : nat → Z) (b : nat → nat → Z) (c : nat → Z) n1 n2 :
  dense_dot (λ k, dense_dot a (λ m, b m k) n1) c n2
  = dense_dot a (λ m, dense_dot (b m) c n2) n1.
Proof.
  induction n1 as [|n1 IH]; cbn [dense_dot].
  - apply dense_dot_zero.
  - rewrite dense_dot_add, IH, dense_dot_scale. done.
Qed.

Lemma product_wf A B :
  valid_operands A B →
  coo_wf (coo_of_stream (num_rows A) (num_cols B) (normalize (partial_products A B))).
Proof.
  intros (HA & HB & _).
  apply coo_of_stream_wf, normalize_in_bounds. by apply partial_products_in_bounds.
Qed.

Lemma product_entry A B r c i j :
  valid_operands A B → row_sorted B →
  coo_entry (coo_of_stream r c (normalize (partial_products A B))) i j
  = dense_multiply (num_cols A) (coo_entry A) (coo_entry B) i j.
Proof.
  intros Hv Hs. rewrite coo_entry_of_stream, entry_sum_normalize.
  by apply entry_sum_product.
Qed.

Lemma product_key_set A B r c i j :
  row_sorted B →
  (i, j) ∈ (coo_triplets (coo_of_stream r c (normalize (partial_products A B)))).*1 ↔
  ∃ k, (i, k) ∈ (coo_triplets A).*1 ∧ (k, j) ∈ (coo_triplets B).*1.
Proof.
  intros Hs. rewrite coo_of_stream_triplets, normalize_key_set.
  by apply partial_products_key_set.
Qed.

(** ** Unchecked dimensions and indices *)

Lemma dense_dot_truncate f g m n :
  m ≤ n → (∀ k, m ≤ k → f k = 0%Z) → dense_dot f g n = dense_dot f g m.
Proof.
  intros Hmn Hf. induction Hmn as [|n Hmn IH]; [done|].
  simpl. rewrite IH, Hf by done. lia.
Qed.

Lemma coo_entry_out_of_cols M i k :
  coo_wf M → num_cols M ≤ k → coo_entry M i k = 0%Z.
Proof.
  intros HM Hk. unfold coo_entry. apply entry_sum_absent. intros Hin.
  destruct (key_row_in_bounds M i k HM Hin). lia.
Qed.

Lemma gather_None {X} n (map : list nat) (input : list X) i m :
  i < n → map !! i = Some m → input !! m = None → gather n map input = None.
Proof.
  revert map i. induction n as [|n IH]; intros [|m' map] [|i] Hi Hm Hin;
    simpl in *; try done; try lia.
  - simplify_eq. by rewrite Hin.
  - destruct (input !! m'); [|done]. simpl.
    rewrite (IH map i) by (done || lia). done.
Qed.

Lemma length_B_row_lengths B : length (B_row_lengths B) = num_rows B.
Proof. by rewrite B_row_lengths_eq, length_fmap, length_seq. Qed.

(** ** Every intermediate position and its segment *)

Lemma lookup_segment lens : ∀ temp s p n x,
  length temp = length lens →
  concat (zip_with (flip replicate) (seq s (length lens)) lens) !! p = Some n →
  concat (zip_with seq temp lens) !! p = Some x →
  ∃ m len o,
    n = s + m ∧ lens !! m = Some len ∧ temp !! m = Some o ∧
    sum_list (take m lens) ≤ p < sum_list (take m lens) + len ∧
    x = o + (p - sum_list (take m lens)).
Proof.
  induction lens as [|l lens IH]; intros [|o temp] s p n x Hlen Hn Hx;
    simpl in *; try done.
  destruct (decide (p < l)) as [Hp|Hp].
  - rewrite lookup_app_l in Hn by (by rewrite length_replicate).
    rewrite lookup_app_l in Hx by (by rewrite length_seq).
    apply lookup_replicate in Hn as [-> _]. apply lookup_seq in Hx as [-> _].
    exists 0, l, o. simpl. split_and!; try done; lia.
  - rewrite lookup_app_r in Hn by (rewrite length_replicate; lia).
    rewrite lookup_app_r in Hx by (rewrite length_seq; lia).
    rewrite length_replicate in Hn. rewrite length_seq in Hx.
    destruct (IH temp (S s) (p - l) n x) as (m & len & o' & -> & Hl & Ho & Hb & ->);
      [lia|done|done|].
    exists (S m), len, o'. simpl. split_and!; try done; lia.
Qed.

(** ** The dense loop nest *)

Lemma for_each_app {S} (l1 l2 : list nat) (body : nat → S → option S) s :
  for_each (l1 ++ l2) body s = s' ← for_each l1 body s; for_each l2 body s'.
Proof.
  revert s. induction l1 as [|i l1 IH]; intros s; simpl; [done|].
  destruct (body i s) as [s'|]; simpl; [apply IH|done].
Qed.

Lemma dense_get_wf A i j :
  Dense.wf A → i < Dense.num_rows A → j < Dense.num_cols A →
  Dense.get A i j = Some (Dense.cell A i j).
Proof.
  unfold Dense.wf, Dense.cell, Dense.get. intros Hwf Hi Hj.
  destruct (Dense.values A !! _) as [v|] eqn:E; [done|].
  apply lookup_ge_None in E. nia.
Qed.

Lemma dense_get_below A i j :
  Dense.wf A → Dense.num_rows A ≤ i → Dense.get A i j = None.
Proof.
  unfold Dense.wf, Dense.get. intros Hwf Hi. apply lookup_ge_None. nia.
Qed.

Lemma dense_dot_loop A B i j n :
  Dense.wf A → Dense.wf B →
  i < Dense.num_rows A → j < Dense.num_cols B →
  n ≤ Dense.num_cols A → n ≤ Dense.num_rows B →
  for_each (seq 0 n)
    (λ k v, a ← Dense.get A i k; b ← Dense.get B k j; Some (v + a * b)%Z) 0%Z
  = Some (dense_dot (Dense.cell A i) (λ k, Dense.cell B k j) n).
Proof.
  intros HA HB Hi Hj. induction n as [|n IH]; intros HnA HnB; [done|].
  rewrite seq_S, for_each_app, IH by lia. simpl.
  rewrite !dense_get_wf by (done || lia). done.
Qed.

Lemma dense_dot_spec A B i j :
  Dense.wf A → Dense.wf B →
  i < Dense.num_rows A → j < Dense.num_cols B →
  Dense.num_cols A ≤ Dense.num_rows B →
  Dense.dot A B i j
  = Some (dense_multiply (Dense.num_cols A) (Dense.cell A) (Dense.cell B) i j).
Proof. intros. by apply dense_dot_loop. Qed.

Lemma dense_dot_fault A B i j :
  Dense.wf A → Dense.wf B →
  i < Dense.num_rows A → Dense.num_rows B < Dense.num_cols A →
  Dense.dot A B i j = None.
Proof.
  intros HA HB Hi Hlt. unfold Dense.dot.
  replace (Dense.num_cols A)
    with (Dense.num_rows B + S (Dense.num_cols A - S (Dense.num_rows B))) by lia.
  rewrite seq_app, for_each_app.
  destruct (for_each (seq 0 (Dense.num_rows B)) _ _) as [v|]; [|done].
  simpl. rewrite (dense_get_wf A i (Dense.num_rows B)) by done. simpl.
  rewrite (dense_get_below B (Dense.num_rows B) j) by done. done.
Qed.

Lemma dense_cells_loop A B r c i (f : nat → nat → Z) n : ∀ j0 pre rest,
  (∀ j, j < c → Dense.dot A B i j = Some (f i j)) →
  length pre = i * c + j0 → n ≤ length rest → j0 + n ≤ c →
  for_each (seq j0 n) (λ j C, v ← Dense.dot A B i j; Dense.set C i j v)
    (Dense.Array2d r c (pre ++ rest))
  = Some (Dense.Array2d r c (pre ++ (f i <$> seq j0 n) ++ drop n rest)).
Proof.
  induction n as [|n IH]; intros j0 pre rest Hdot Hpre Hrest Hj; simpl.
  { by rewrite drop_0. }
  destruct rest as [|x rest]; [simpl in Hrest; lia|].
  rewrite Hdot by lia. simpl. unfold Dense.set, store. simpl.
  rewrite length_app. simpl.
  destruct (_ <? _) eqn:E; [|apply Nat.ltb_ge in E; lia]. simpl.
  replace (i * c + j0) with (length pre + 0) by lia.
  rewrite insert_app_r. simpl.
  rewrite (cons_middle (f i j0) pre), app_assoc.
  rewrite IH; [|done|rewrite length_app; simpl; lia|simpl in Hrest; lia|lia].
  by rewrite <- app_assoc.
Qed.

Lemma dense_rows_loop A B r c (f : nat → nat → Z) n : ∀ i0 pre rest,
  (∀ i j, i < r → j < c → Dense.dot A B i j = Some (f i j)) →
  length pre = i0 * c → n * c ≤ length rest → i0 + n ≤ r →
  for_each (seq i0 n)
    (λ i C, for_each (seq 0 (Dense.num_cols C))
              (λ j C, v ← Dense.dot A B i j; Dense.set C i j v) C)
    (Dense.Array2d r c (pre ++ rest))
  = Some (Dense.Array2d r c
            (pre ++ concat ((λ i, f i <$> seq 0 c) <$> seq i0 n)
                 ++ drop (n * c) rest)).
Proof.
  induction n as [|n IH]; intros i0 pre rest Hdot Hpre Hrest Hi.
  { simpl. by rewrite drop_0. }
  cbn [seq for_each Dense.num_cols].
  rewrite (dense_cells_loop A B r c i0 f c 0 pre rest);
    [|intros; apply Hdot; lia|lia|simpl in Hrest; lia|lia].
  cbn [mbind option_bind]. rewrite app_assoc.
  rewrite IH; [|done|rewrite length_app, length_fmap, length_seq; lia
               |rewrite length_drop; simpl in Hrest; lia|lia].
  csimpl. by rewrite drop_drop, <- !app_assoc.
Qed.

Lemma length_grid r c f : length (Dense.grid r c f) = r * c.
Proof.
  unfold Dense.grid. generalize 0 at 2. induction r as [|r IH]; intros s; [done|].
  csimpl. rewrite length_app, length_fmap, length_seq, IH. done.
Qed.

Lemma grid_lookup r c f i j :
  i < r → j < c → Dense.grid r c f !! (i * c + j) = Some (f i j).
Proof.
  unfold Dense.grid. intros Hi Hj.
  assert (∀ n s m, m < n →
    concat ((λ i, f i <$> seq 0 c) <$> seq s n) !! (m * c + j) = Some (f (s + m) j)) as H.
  { induction n as [|n IH]; intros s [|m] Hm; try lia; csimpl.
    - rewrite lookup_app_l by (by rewrite length_fmap, length_seq).
      rewrite list_lookup_fmap, lookup_seq_lt by done. simpl. do 2 f_equal. lia.
    - rewrite lookup_app_r by (rewrite length_fmap, length_seq; lia).
      rewrite length_fmap, length_seq.
      replace (c + m * c + j - c) with (m * c + j) by lia.
      rewrite IH by lia. do 2 f_equal. lia. }
  by rewrite H.
Qed.

Lemma dense_multiply_grid A B C :
  Dense.wf A → Dense.wf B → Dense.num_cols A ≤ Dense.num_rows B →
  Dense.multiply A B C
  = Some (Dense.Array2d (Dense.num_rows A) (Dense.num_cols B)
            (Dense.grid (Dense.num_rows A) (Dense.num_cols B)
               (dense_multiply (Dense.num_cols A) (Dense.cell A) (Dense.cell B)))).
Proof.
  intros HA HB Hle. unfold Dense.multiply, Dense.resize. cbn [Dense.num_rows].
  set (r := Dense.num_rows A). set (c := Dense.num_cols B).
  set (vs := resize (r * c) 0%Z (Dense.values C)).
  pose proof (dense_rows_loop A B r c
    (dense_multiply (Dense.num_cols A) (Dense.cell A) (Dense.cell B)) r 0 [] vs) as H.
  rewrite !app_nil_l in H. rewrite H.
  - unfold Dense.grid. rewrite drop_ge, app_nil_r; [done|].
    unfold vs. by rewrite length_resize.
  - intros i j Hi Hj. by apply dense_dot_spec.
  - done.
  - unfold vs. by rewrite length_resize.
  - lia.
Qed.

Lemma dense_dot_ext2 a a' b b' n :
  (∀ k, k < n → a k = a' k) → (∀ k, k < n → b k = b' k) →
  dense_dot a b n = dense_dot a' b' n.
Proof.
  induction n as [|n IH]; intros Ha Hb; simpl; [done|].
  rewrite IH, Ha, Hb by (intros; auto with lia). done.
Qed.

Lemma grid_ext r c f f' :
  (∀ i j, i < r → j < c → f i j = f' i j) → Dense.grid r c f = Dense.grid r c f'.
Proof.
  intros H. unfold Dense.grid. f_equal.
  apply list_fmap_ext. intros _ i Hi%list_elem_of_lookup_2%elem_of_seq.
  apply list_fmap_ext. intros _ j Hj%list_elem_of_lookup_2%elem_of_seq.
  apply H; lia.
Qed.

Lemma dense_cell_grid r c f i j :
  i < r → j < c → Dense.cell (Dense.Array2d r c (Dense.grid r c f)) i j = f i j.
Proof.
  intros Hi Hj. unfold Dense.cell, Dense.get. simpl. by rewrite grid_lookup.
Qed.

Lemma to_array2d_wf M : Dense.wf (to_array2d M).
Proof. unfold Dense.wf, to_array2d. simpl. apply length_grid. Qed.

Lemma dense_product_wf r c f : Dense.wf (Dense.Array2d r c (Dense.grid r c f)).
Proof. unfold Dense.wf. simpl. apply length_grid. Qed.


(** ** Every outcome of a run *)

Lemma multiply_outcome A B C C' :
  multiply A B C = (Some (), C') →
  ∃ s, C' = coo_of_stream (num_rows A) (num_cols B) (normalize s) ∧
       (s = [] ∨ ∃ I0 J0 V0, expand A B = Some (I0, J0, V0) ∧ s = stream I0 J0 V0).
Proof.
  destruct (decide (num_entries A = 0 ∨ num_entries B = 0)) as [He|He].
  - rewrite multiply_empty by done. intros [= <-]. exists []. split; [done|by left].
  - rewrite multiply_result by lia.
    destruct (expand A B) as [[[I0 J0] V0]|]; [|done]. intros [= <-].
    eexists. split; [done|]. right. by exists I0, J0, V0.
Qed.

Lemma gather_elem_of {X} n (map : list nat) (input out : list X) :
  gather n map input = Some out → Forall (λ x, x ∈ input) out.
Proof.
  revert map out. induction n as [|n IH]; intros [|m map] out; simpl; intros H;
    simplify_option_eq; try by constructor.
  constructor; [by eapply list_elem_of_lookup_2|eauto].
Qed.

Lemma expand_elem_of A B I0 J0 V0 :
  expand A B = Some (I0, J0, V0) →
  Forall (λ i, i ∈ row_indices A) I0 ∧ Forall (λ j, j ∈ column_indices B) J0.
Proof.
  unfold expand. intros H.
  repeat match type of H with
  | (?o ≫= _) = Some _ => let E := fresh "E" in destruct o eqn:E; simpl in H; [|done]
  end.
  simplify_eq. split; by eapply gather_elem_of.
Qed.

Lemma multiply_outcome_wf A B C C' :
  Forall (λ i, i < num_rows A) (row_indices A) →
  Forall (λ j, j < num_cols B) (column_indices B) →
  multiply A B C = (Some (), C') → coo_wf C' ∧ row_sorted C'.
Proof.
  intros HAr HBc (s & -> & Hs)%multiply_outcome.
  split; [|apply coo_of_stream_row_sorted, normalize_sorted].
  apply coo_of_stream_wf, normalize_in_bounds.
  destruct Hs as [->|(I0 & J0 & V0 & He & ->)]; [constructor|].
  apply expand_elem_of in He as [HI HJ].
  apply Forall_fmap, Forall_forall. intros t (Hi & Hj & _)%elem_of_stream. simpl.
  rewrite Forall_forall in HAr, HBc, HI, HJ. auto.
Qed.

(** ** Streams without duplicate coordinates *)

Lemma reduce_run_NoDup k acc l :
  NoDup (k :: l.*1) → reduce_run k acc l = (k, acc) :: l.
Proof.
  revert k acc. induction l as [|[k' v'] l IH]; intros k acc H; csimpl; [done|].
  csimpl in H. apply NoDup_cons in H as [Hk H].
  rewrite bool_decide_eq_false_2 by (intros ->; apply Hk; left).
  f_equal. by apply IH.
Qed.

Lemma reduce_by_key_NoDup s : NoDup s.*1 → reduce_by_key s = s.
Proof. destruct s as [|[k v] s]; [done|]. apply reduce_run_NoDup. Qed.

Lemma normalize_NoDup s : NoDup s.*1 → normalize s ≡ₚ s.
Proof.
  intros H. unfold normalize. rewrite reduce_by_key_NoDup.
  - apply sort_stream_Permutation.
  - by rewrite sort_stream_Permutation.
Qed.

Lemma entry_sum_unique (s : list triplet) i j v :
  NoDup s.*1 → (i, j, v) ∈ s → entry_sum s i j = v.
Proof.
  induction s as [|[k w] s IH]; csimpl; intros Hnd Hin;
    [by apply elem_of_nil in Hin|].
  apply NoDup_cons in Hnd as [Hk Hnd]. apply elem_of_cons in Hin as [Heq|Hin].
  - injection Heq as <- <-. rewrite bool_decide_eq_true_2 by done.
    rewrite entry_sum_absent by done. lia.
  - rewrite bool_decide_eq_false_2; [by apply IH|].
    intros ->. apply Hk. apply list_elem_of_fmap. by exists (i, j, v).
Qed.

Lemma normalize_NoDup_keys s : NoDup (normalize s).*1.
Proof.
  apply StronglySorted_lex_lt_NoDup.
  apply (StronglySorted_fmap fst (λ x y : triplet, lex_lt x.1 y.1));
    [done|apply normalize_sorted].
Qed.

(** ** The sums of particular runs *)

Lemma sum_count_eq l n :
  sum_list ((λ r, count_eq r l) <$> seq 0 n) = count_lt n l.
Proof.
  induction n as [|n IH].
  - unfold count_lt. simpl. induction l as [|x l IHl]; [done|].
    rewrite filter_cons_False by lia. done.
  - rewrite seq_S, fmap_app, sum_list_with_app, IH, count_lt_S. simpl. lia.
Qed.

Lemma count_lt_all n l : Forall (λ i, i < n) l → count_lt n l = length l.
Proof.
  unfold count_lt. induction 1 as [|x l Hx H IH]; [done|].
  rewrite filter_cons_True by done. simpl. by rewrite IH.
Qed.

Lemma sums_fit_identity A :
  coo_wf A → num_entries A ≤ index_max → num_cols A ≤ index_max →
  sums_fit A (identity (num_cols A)).
Proof.
  intros (HAr & HAc & HAv & _ & HAcol) Hn Hc. split.
  - unfold row_counts. simpl. rewrite (sum_list_fmap_same 1); [lia|].
    eapply Forall_impl; [exact HAcol|]. intros j Hj. simpl in Hj.
    rewrite count_eq_seq. by rewrite decide_True.
  - apply Forall_forall. intros j _. right. simpl.
    rewrite <- count_lt_S, count_lt_seq. lia.
Qed.


Lemma sums_fit_length A B :
  coo_wf A → coo_wf B → sums_fit A B →
  length (partial_products A B) ≤ index_max.
Proof. intros HA HB [Hs _]. by rewrite length_partial_products. Qed.

(** * The claims *)

(** C1, within the range of the index type: for well-formed operands with
    [A.num_cols = B.num_rows], B sorted by row, and a run within the range
    of [IndexType] (the entry counts of the operands and the total
    intermediate count T do not exceed [index_max]), [multiply] completes
    and the value of the result at every coordinate (i, j) is the sum over k
    of A(i,k) * B(k,j), that is the dense reference product of lines 158-176
    applied to A and B.  Without the bound on T the statement fails:
    [multiply_dense_product_overflow]. *)
Theorem multiply_dense_product (A B C : coo_matrix) :
  valid_operands A B → row_sorted B → within_index_range A B →
  ∃ C', multiply A B C = (Some (), C') ∧
        ∀ i j, coo_entry C' i j
               = dense_multiply (num_cols A) (coo_entry A) (coo_entry B) i j.
Proof.
  intros Hv Hs Hr. eexists. split; [by apply multiply_spec|].
  intros i j. rewrite coo_entry_of_stream, entry_sum_normalize.
  by apply entry_sum_product.
Qed.

(** C2: every matrix that [multiply] produces, whatever the operands and
    whatever the index type, has its entries strictly ascending in the
    lexicographic order on (row, column), so no coordinate occurs twice;
    for valid operands and a run within the range of [IndexType],
    [multiply] does produce such a matrix; and for every triplet stream
    whatsoever, the two sorting passes (by column key, then by row key)
    followed by the merge of equal keys yield arrays in that strict
    order. *)
Theorem multiply_strictly_sorted (A B C : coo_matrix) :
  (∀ C', multiply A B C = (Some (), C') →
         StronglySorted lex_lt (zip (row_indices C') (column_indices C')) ∧
         NoDup (zip (row_indices C') (column_indices C'))) ∧
  (valid_operands A B → within_index_range A B →
   ∃ C', multiply A B C = (Some (), C') ∧
         StronglySorted lex_lt (zip (row_indices C') (column_indices C')) ∧
         NoDup (zip (row_indices C') (column_indices C'))) ∧
  (∀ I0 J0 V0 I2 J2 V2 NNZ,
     sort_merge I0 J0 V0 = (I2, J2, V2, NNZ) →
     StronglySorted lex_lt (zip I2 J2) ∧ NoDup (zip I2 J2)).
Proof.
  assert (∀ s, StronglySorted lex_lt (normalize s).*1) as Hn.
  { intros s. apply (StronglySorted_fmap fst (λ x y : triplet, lex_lt x.1 y.1));
      [done|apply normalize_sorted]. }
  split_and!.
  - intros C' (s & -> & _)%multiply_outcome.
    rewrite coo_of_stream_keys. split; [done|].
    by apply StronglySorted_lex_lt_NoDup.
  - intros Hv Hr. eexists. split; [by apply multiply_spec|].
    rewrite coo_of_stream_keys. split; [done|].
    by apply StronglySorted_lex_lt_NoDup.
  - intros I0 J0 V0 I2 J2 V2 NNZ. rewrite sort_merge_stream. cbv zeta.
    intros [= <- <- <- <-]. rewrite zip_fst_snd. split; [done|].
    by apply StronglySorted_lex_lt_NoDup.
Qed.

(** C3, within the range of the index type: for well-formed operands and
    a run within the range of [IndexType], the data-parallel expansion of
    lines 77-130 (scatter of the entry indices at [output_ptr], inclusive
    maximum scan, scatter of the row offsets, inclusive segmented plus-scan
    over ones, gathers from A and B) succeeds and produces the triplets of
    the sequential nested-loop expansion: the same sequence, hence the same
    multiset.  Without the bound on T the statement fails:
    [expansion_overflow]. *)
Theorem expansion_refines_sequential (A B : coo_matrix) :
  valid_operands A B → num_entries A ≠ 0 → within_index_range A B →
  ∃ I0 J0 V0 s,
    expand A B = Some (I0, J0, V0) ∧
    expansion_sequential A B = Some s ∧
    length I0 = length s ∧ length J0 = length s ∧ length V0 = length s ∧
    stream I0 J0 V0 = s ∧
    stream I0 J0 V0 ≡ₚ s.
Proof.
  intros Hv Hne Hr.
  pose proof (within_index_range_sums_fit A B Hv Hr) as Hfit.
  destruct Hv as (HA & HB & Hdim).
  destruct (expand_stream A B HA HB Hdim Hne Hfit) as (I0 & J0 & V0 & He & Hs).
  exists I0, J0, V0, (partial_products A B).
  destruct (expand_lengths _ _ _ _ _ He) as [HI HV].
  pose proof (length_stream _ _ _ HI HV) as Hlen. rewrite Hs in Hlen.
  split_and!; try done; [by apply expansion_sequential_spec|lia..|by rewrite Hs].
Qed.

(** C4: the destination is written only by the assembly at the end of the
    general path and by the swap of the empty path.  A run that faults
    leaves C exactly as it was; the stages before the assembly do not
    change C; and a run that completes leaves a destination that does not
    depend on the previous contents of C. *)
Theorem destination_all_or_nothing (A B C : coo_matrix) :
  (∀ C', multiply A B C = (None, C') → C' = C) ∧
  (lift (expand A B) C).2 = C ∧
  (∀ C', multiply A B C = (Some (), C') →
         ∀ C0, multiply A B C0 = (Some (), C')).
Proof.
  destruct (decide (num_entries A = 0 ∨ num_entries B = 0)) as [He|He].
  - split_and!; [|done|].
    + rewrite multiply_empty by done. intros C' [=].
    + intros C' H C0. rewrite multiply_empty in H |- * by done. done.
  - split_and!; [|done|].
    + rewrite multiply_result by lia.
      destruct (expand A B) as [[[I0 J0] V0]|]; intros C' [=]. done.
    + intros C' H C0. rewrite multiply_result in H |- * by lia.
      destruct (expand A B) as [[[I0 J0] V0]|]; [done|]. by inversion H.
Qed.

(** C5: when A or B has no entries, [multiply] runs none of the stages and
    the destination becomes the matrix of shape (A.num_rows, B.num_cols)
    with zero entries, whatever the operands and the destination hold. *)
Theorem multiply_empty_operand (A B C : coo_matrix) :
  num_entries A = 0 ∨ num_entries B = 0 →
  multiply A B C = (Some (), Coo (num_rows A) (num_cols B) 0 [] [] []).
Proof. intros H. by rewrite multiply_empty. Qed.

(** C6: with [A.num_cols = B.num_rows], every matrix that [multiply]
    produces, on the empty path and on the general path alike and whatever
    the index type, has [A.num_rows] rows and [B.num_cols] columns; and on
    well-formed operands, for a run within the range of [IndexType],
    [multiply] does produce one. *)
Theorem multiply_shape (A B C : coo_matrix) :
  num_cols A = num_rows B →
  (∀ C', multiply A B C = (Some (), C') →
         num_rows C' = num_rows A ∧ num_cols C' = num_cols B) ∧
  (coo_wf A → coo_wf B → within_index_range A B →
   ∃ C', multiply A B C = (Some (), C') ∧
         num_rows C' = num_rows A ∧ num_cols C' = num_cols B).
Proof.
  intros Hdim. split.
  - intros C'. destruct (decide (num_entries A = 0 ∨ num_entries B = 0)) as [He|He].
    + rewrite multiply_empty by done. by intros [= <-].
    + rewrite multiply_result by lia.
      destruct (expand A B) as [[[I0 J0] V0]|]; [|done]. by intros [= <-].
  - intros HA HB Hr. eexists. split; [by apply multiply_spec|done].
Qed.

(** C7: when both operands are nonempty and every column index of A refers
    to an empty row of B, the total intermediate count
    [output_ptr[A.num_entries]] is zero, and [multiply] still completes,
    with the zero-entry matrix of shape (A.num_rows, B.num_cols). *)
Theorem multiply_no_partial_products (A B C : coo_matrix) :
  valid_operands A B → num_entries A ≠ 0 → num_entries B ≠ 0 →
  Forall (λ j, B_row_lengths B !! j = Some 0) (column_indices A) →
  (seg ← segment_lengths A B;
   ptr ← output_ptr (num_entries A) seg;
   ptr !! num_entries A) = Some 0 ∧
  multiply A B C = (Some (), Coo (num_rows A) (num_cols B) 0 [] [] []).
Proof.
  intros (HA & HB & Hdim) HnA HnB Hzero.
  pose proof HA as (HAr & HAc & HAv & _ & HAcol).
  assert (Forall (λ j, count_eq j (row_indices B) = 0) (column_indices A)) as Hz.
  { rewrite Forall_forall in Hzero, HAcol. apply Forall_forall. intros j Hj.
    specialize (Hzero j Hj). rewrite B_row_lengths_lookup in Hzero; [congruence|].
    rewrite <- Hdim. by apply HAcol. }
  pose proof (sums_fit_zero A B Hz) as Hfit.
  assert (sum_list (row_counts A B) = 0) as Hsum.
  { unfold row_counts. rewrite (sum_list_fmap_same 0) by done. lia. }
  split.
  - rewrite segment_lengths_spec by (by rewrite <- ?Hdim). simpl.
    fold (row_counts A B).
    assert (length (row_counts A B) = num_entries A) as Hlen.
    { unfold row_counts. by rewrite length_fmap. }
    rewrite (output_ptr_spec _ _ Hlen HnA) by lia. simpl.
    rewrite lookup_app_r by (rewrite length_prefix_sums; lia).
    rewrite length_prefix_sums, Hlen, Nat.sub_diag. simpl. by f_equal.
  - rewrite multiply_spec_sums by done.
    assert (partial_products A B = []) as ->; [|done].
    unfold partial_products.
    pose proof (cols_of_stream A HAr HAc HAv) as Ec. rewrite Ec in Hz.
    apply Forall_fmap in Hz. clear Ec.
    set (ents := stream _ _ _) in *. clearbody ents.
    induction Hz as [|e s He Hz IH]; csimpl; [done|].
    rewrite IH, app_nil_r. unfold product_chunk. simpl in He.
    destruct HB as (HBr & HBc & HBv & _).
    assert (B_row B e.1.2 = []) as ->; [|done].
    apply nil_length_inv. unfold B_row. rewrite length_B_slice; [done|].
    rewrite length_zip_with. lia.
Qed.

(** C8, within the range of the index type: on the general path, when the
    sum T of all segment lengths does not exceed [index_max], after the
    output-layout stage [output_ptr[k]] is the sum of the first [k] segment
    lengths for every [k] below [A.num_entries], and
    [output_ptr[A.num_entries]] is T.  The exclusive scan alone leaves that
    last slot at its initial zero; it is the trailing write
    [output_ptr[n] = output_ptr[n-1] + segment_lengths[n-1]] that stores T.
    Without the bound on T the statement fails: [output_ptr_overflow]. *)
Theorem output_ptr_prefix_sums (A B : coo_matrix) (seg : list nat) :
  num_entries A ≠ 0 →
  segment_lengths A B = Some seg →
  sum_list seg ≤ index_max →
  ∃ scanned ptr,
    output_ptr_scan (num_entries A) seg = Some scanned ∧
    trailing_write (num_entries A) scanned seg = Some ptr ∧
    output_ptr (num_entries A) seg = Some ptr ∧
    length ptr = num_entries A + 1 ∧
    (∀ k, k < num_entries A → ptr !! k = Some (sum_list (take k seg))) ∧
    ptr !! num_entries A = Some (sum_list seg) ∧
    scanned !! num_entries A = Some 0 ∧
    (∀ a b, scanned !! (num_entries A - 1) = Some a →
            seg !! (num_entries A - 1) = Some b →
            a + b = sum_list seg).
Proof.
  intros Hn Hseg Hsum. apply gather_length in Hseg.
  pose proof (output_ptr_spec _ _ Hseg Hn Hsum) as Hptr.
  pose proof (output_ptr_scan_spec _ _ Hseg Hsum) as Hscan.
  unfold output_ptr in Hptr. rewrite Hscan in Hptr. simpl in Hptr.
  eexists _, _. split_and!; [done|done|..].
  - unfold output_ptr. rewrite Hscan. done.
  - rewrite length_app, length_prefix_sums. simpl. lia.
  - intros k Hk. rewrite lookup_app_l by (rewrite length_prefix_sums; lia).
    by rewrite lookup_prefix_sums by lia.
  - rewrite lookup_app_r by (rewrite length_prefix_sums; lia).
    by rewrite length_prefix_sums, Hseg, Nat.sub_diag.
  - rewrite lookup_app_r by (rewrite length_prefix_sums; lia).
    by rewrite length_prefix_sums, Hseg, Nat.sub_diag.
  - intros a b Ha Hb.
    rewrite lookup_app_l in Ha by (rewrite length_prefix_sums; lia).
    rewrite lookup_prefix_sums in Ha by lia. injection Ha as <-.
    rewrite (sum_list_snoc_lookup seg (num_entries A - 1) b); [lia|lia|done].
Qed.

(** C9: for every well-formed A whose entry count and column count are
    values of [IndexType], multiplying by the identity matrix of size
    [A.num_cols] (a COO diagonal of ones) completes with a well-formed
    matrix of A's shape whose coordinates are strictly ascending in the
    lexicographic order, hence without duplicates, and are exactly the
    coordinates that occur in A; every stored value is the sum of the values
    that A stores at that coordinate, so the value at every coordinate is
    the one A has there; when no coordinate occurs twice in A the result
    holds exactly A's triplets; and the three arrays are those that the
    sort and merge passes produce from A's own arrays. *)
Theorem multiply_identity (A C : coo_matrix) :
  coo_wf A → num_entries A ≤ index_max → num_cols A ≤ index_max →
  ∃ C',
    multiply A (identity (num_cols A)) C = (Some (), C') ∧
    (num_rows C' = num_rows A ∧ num_cols C' = num_cols A) ∧
    coo_wf C' ∧
    StronglySorted lex_lt (zip (row_indices C') (column_indices C')) ∧
    NoDup (zip (row_indices C') (column_indices C')) ∧
    (∀ i j, (i, j) ∈ zip (row_indices C') (column_indices C')
            ↔ (i, j) ∈ zip (row_indices A) (column_indices A)) ∧
    (∀ i j v, (i, j, v) ∈ coo_triplets C' → v = coo_entry A i j) ∧
    (∀ i j, coo_entry C' i j = coo_entry A i j) ∧
    (NoDup (zip (row_indices A) (column_indices A)) →
     coo_triplets C' ≡ₚ coo_triplets A) ∧
    sort_merge (row_indices A) (column_indices A) (values A)
    = (row_indices C', column_indices C', values C', num_entries C').
Proof.
  intros HA Hn Hc.
  pose proof (normalize_NoDup_keys (coo_triplets A)) as Hnd.
  pose proof (normalize_sorted (coo_triplets A)) as Hsorted.
  exists (coo_of_stream (num_rows A) (num_cols A) (normalize (coo_triplets A))).
  split_and!.
  - rewrite multiply_spec_sums.
    + by rewrite partial_products_identity.
    + split_and!; [done|apply identity_wf|done].
    + by apply sums_fit_identity.
  - done.
  - done.
  - apply coo_of_stream_wf, normalize_in_bounds.
    pose proof (partial_products_in_bounds A (identity (num_cols A)) HA
                  (identity_wf _)) as Hb.
    by rewrite partial_products_identity in Hb.
  - rewrite coo_of_stream_keys.
    by apply (StronglySorted_fmap fst (λ x y : triplet, lex_lt x.1 y.1)).
  - by rewrite coo_of_stream_keys.
  - intros i j. rewrite coo_of_stream_keys, normalize_key_set.
    by rewrite coo_keys.
  - intros i j v Hin. rewrite coo_of_stream_triplets in Hin.
    rewrite <- (entry_sum_unique _ i j v Hnd Hin).
    by rewrite entry_sum_normalize.
  - intros i j. by rewrite coo_entry_of_stream, entry_sum_normalize.
  - intros HndA. rewrite coo_of_stream_triplets. apply normalize_NoDup.
    by rewrite <- coo_keys.
  - rewrite sort_merge_stream. cbv zeta. done.
Qed.

(** C10: on the general branch the emptiness test has failed, so
    [A.num_entries >= 1]; whenever the gather of the segment lengths has
    succeeded, [output_ptr] has [A.num_entries + 1] slots and
    [segment_lengths] has [A.num_entries], so both reads at index
    [A.num_entries - 1] and the write at index [A.num_entries] of line 73
    are within bounds and the trailing write does not fault. *)
Theorem trailing_write_in_bounds (A B : coo_matrix) (seg : list nat) :
  ¬ (num_entries A = 0 ∨ num_entries B = 0) →
  segment_lengths A B = Some seg →
  1 ≤ num_entries A ∧
  ∃ scanned,
    output_ptr_scan (num_entries A) seg = Some scanned ∧
    length scanned = num_entries A + 1 ∧
    length seg = num_entries A ∧
    is_Some (scanned !! (num_entries A - 1)) ∧
    is_Some (seg !! (num_entries A - 1)) ∧
    is_Some (trailing_write (num_entries A) scanned seg).
Proof.
  intros Hne Hseg. apply gather_length in Hseg.
  assert (num_entries A ≠ 0) as Hn by lia.
  split; [lia|].
  destruct (exclusive_scan_length seg 0 (array1d (num_entries A + 1) 0))
    as (scanned & Hscan & Hlen).
  { unfold array1d. rewrite length_replicate. lia. }
  unfold array1d in Hlen. rewrite length_replicate in Hlen.
  exists scanned. split_and!; [done|done|done|..].
  - apply lookup_lt_is_Some. lia.
  - apply lookup_lt_is_Some. lia.
  - destruct (num_entries A) as [|m]; [done|].
    apply trailing_write_is_Some; lia.
Qed.

(** * Further properties of the sparse product *)

(** X1: every matrix that [multiply] produces from well-formed operands,
    whatever the index type, satisfies the container invariant (three
    arrays of [num_entries] slots, row indices below [A.num_rows], column
    indices below [B.num_cols]) and is sorted by row, so it can itself be
    passed as either operand; and with [A.num_cols = B.num_rows], for a run
    within the range of [IndexType], [multiply] does produce one. *)
Theorem multiply_result_operand (A B C : coo_matrix) :
  coo_wf A → coo_wf B →
  (∀ C', multiply A B C = (Some (), C') → coo_wf C' ∧ row_sorted C') ∧
  (num_cols A = num_rows B → within_index_range A B →
   ∃ C', multiply A B C = (Some (), C') ∧ coo_wf C' ∧ row_sorted C').
Proof.
  intros HA HB.
  assert (∀ C', multiply A B C = (Some (), C') → coo_wf C' ∧ row_sorted C') as H.
  { intros C'. destruct HA as (_ & _ & _ & HAr & _), HB as (_ & _ & _ & _ & HBc).
    by apply multiply_outcome_wf. }
  split; [done|]. intros Hdim Hr. eexists. split; [by apply multiply_spec|].
  apply H. by apply multiply_spec.
Qed.

(** X2: for valid operands and a run within the range of [IndexType], the
    number of entries of the result never exceeds the number of cells
    [A.num_rows * B.num_cols], and on the general path it never exceeds the
    intermediate count [coo_num_nonzeros] read from
    [output_ptr[A.num_entries]]. *)
Theorem multiply_entry_count (A B C : coo_matrix) :
  valid_operands A B → within_index_range A B →
  ∃ C', multiply A B C = (Some (), C') ∧
        num_entries C' ≤ num_rows A * num_cols B ∧
        (num_entries A ≠ 0 → num_entries B ≠ 0 →
         ∃ T, (seg ← segment_lengths A B;
               ptr ← output_ptr (num_entries A) seg;
               ptr !! num_entries A) = Some T ∧
              num_entries C' ≤ T).
Proof.
  intros Hv Hr. eexists. split; [by apply multiply_spec|].
  pose proof (within_index_range_sums_fit A B Hv Hr) as [Hsum _].
  pose proof Hv as (HA & HB & _). split.
  - pose proof (length_fmap fst (normalize (partial_products A B))) as Hlen.
    cbn [num_entries coo_of_stream]. unfold triplet. rewrite <- Hlen.
    apply NoDup_in_box.
    + apply StronglySorted_lex_lt_NoDup.
      apply (StronglySorted_fmap fst (λ x y : triplet, lex_lt x.1 y.1));
        [done|apply normalize_sorted].
    + apply normalize_in_bounds. by apply partial_products_in_bounds.
  - intros HnA _. eexists. split; [by apply output_total|].
    rewrite <- length_partial_products by done.
    cbn [num_entries coo_of_stream]. apply length_normalize.
Qed.

(** X3: for valid operands with B sorted by row and a run within the range
    of [IndexType], (i, j) is a coordinate of the result exactly when A
    stores some (i, k) and B stores some (k, j).  The pattern is
    structural: an entry whose partial products cancel is kept with value
    zero, it is not pruned. *)
Theorem multiply_sparsity_pattern (A B C : coo_matrix) :
  valid_operands A B → row_sorted B → within_index_range A B →
  ∃ C', multiply A B C = (Some (), C') ∧
        ∀ i j, (i, j) ∈ zip (row_indices C') (column_indices C') ↔
               ∃ k, (i, k) ∈ zip (row_indices A) (column_indices A) ∧
                    (k, j) ∈ zip (row_indices B) (column_indices B).
Proof.
  intros Hv Hs Hr. eexists. split; [by apply multiply_spec|].
  destruct Hv as (HA & HB & _). intros i j.
  rewrite coo_of_stream_keys, normalize_key_set, !coo_keys by done.
  by apply partial_products_key_set.
Qed.


(** X4: for runs within the range of [IndexType] and an exact value type,
    the result does not depend on the order in which the operands store
    their entries: operands of the same shapes whose triplets are
    permutations of one another (B sorted by row in both) give the same
    destination, array for array. *)
Theorem multiply_entry_order (A B A' B' C : coo_matrix) :
  valid_operands A B → valid_operands A' B' →
  row_sorted B → row_sorted B' →
  within_index_range A B → within_index_range A' B' →
  num_rows A' = num_rows A → num_rows B' = num_rows B → num_cols B' = num_cols B →
  coo_triplets A' ≡ₚ coo_triplets A →
  coo_triplets B' ≡ₚ coo_triplets B →
  multiply A' B' C = multiply A B C.
Proof.
  intros Hv Hv' Hs Hs' Hr Hr' HrA HrB HcB HpA HpB.
  rewrite !multiply_spec by done. rewrite HrA, HcB. do 2 f_equal.
  apply normalize_ext.
  - intros [i j]. rewrite !partial_products_key_set by done.
    split; intros (k & Hk1 & Hk2); exists k.
    + by rewrite <- HpA, <- HpB.
    + by rewrite HpA, HpB.
  - intros i j. rewrite !entry_sum_product by done.
    destruct Hv as (_ & _ & Hd), Hv' as (_ & _ & Hd').
    rewrite Hd, Hd', HrB.
    apply dense_multiply_ext; intros; by apply coo_entry_Permutation.
Qed.

(** X5: for valid operands and a run within the range of [IndexType], with
    [B.num_cols] a value of [IndexType], the matrix that [multiply]
    produces is in normal form: the source's own sort and merge passes
    leave its arrays unchanged, and multiplying it by the identity returns
    the very same matrix. *)
Theorem multiply_normal_form (A B C : coo_matrix) :
  valid_operands A B → within_index_range A B → num_cols B ≤ index_max →
  ∃ C', multiply A B C = (Some (), C') ∧
        sort_merge (row_indices C') (column_indices C') (values C')
        = (row_indices C', column_indices C', values C', num_entries C') ∧
        ∀ C0, multiply C' (identity (num_cols C')) C0 = (Some (), C').
Proof.
  intros Hv Hr Hc. eexists. split; [by apply multiply_spec|].
  pose proof (within_index_range_sums_fit A B Hv Hr) as Hfit.
  pose proof Hv as (HA & HB & _).
  set (s := normalize (partial_products A B)).
  assert (StronglySorted (λ x y : triplet, lex_lt x.1 y.1) s) as Hs
    by apply normalize_sorted.
  assert (coo_wf (coo_of_stream (num_rows A) (num_cols B) s)) as Hwf.
  { apply coo_of_stream_wf, normalize_in_bounds. by apply partial_products_in_bounds. }
  split; [by apply sort_merge_normal_form|].
  intros C0. rewrite multiply_spec_sums.
  - rewrite partial_products_identity, coo_of_stream_triplets by done.
    unfold s. by rewrite normalize_idemp.
  - split_and!; [done|apply identity_wf|done].
  - apply sums_fit_identity; [done| |done].
    cbn [num_entries coo_of_stream]. unfold s.
    pose proof (length_normalize (partial_products A B)).
    pose proof (sums_fit_length A B HA HB Hfit). lia.
Qed.




(** X7: the product is associative on the nose, for an exact value type
    and runs within the range of [IndexType]: for A, B, D with matching
    inner dimensions and B, D sorted by row, the products of A and B and of
    B and D complete; and when the two outer runs are within range as well,
    multiplying the product of A and B by D and multiplying A by the
    product of B and D both complete and leave the same matrix, array for
    array. *)
Theorem multiply_associative (A B D C : coo_matrix) :
  valid_operands A B → valid_operands B D → row_sorted B → row_sorted D →
  within_index_range A B → within_index_range B D →
  ∃ AB BD,
    multiply A B C = (Some (), AB) ∧
    multiply B D C = (Some (), BD) ∧
    (within_index_range AB D → within_index_range A BD →
     ∃ R, multiply AB D C = (Some (), R) ∧ multiply A BD C = (Some (), R)).
Proof.
  intros HAB HBD HsB HsD HrAB HrBD.
  pose proof HAB as (HA & HB & HdAB). pose proof HBD as (_ & HD & HdBD).
  set (AB := coo_of_stream (num_rows A) (num_cols B) (normalize (partial_products A B))).
  set (BD := coo_of_stream (num_rows B) (num_cols D) (normalize (partial_products B D))).
  assert (valid_operands AB D) as HvL.
  { split_and!; [by apply product_wf|done|done]. }
  assert (valid_operands A BD) as HvR.
  { split_and!; [done|by apply product_wf|done]. }
  assert (row_sorted BD) as HsBD.
  { apply coo_of_stream_row_sorted, normalize_sorted. }
  exists AB, BD.
  split_and!; [by apply multiply_spec|by apply multiply_spec|].
  intros HrL HrR. eexists. split; [by apply multiply_spec|].
  rewrite multiply_spec by done. do 2 f_equal.
  apply normalize_ext.
  - intros [i j]. rewrite !partial_products_key_set by done. split.
    + intros (m & HAm & (k & HBk & HDk)%product_key_set); [|done].
      exists k. split; [|done]. apply product_key_set; [done|]. eauto.
    + intros (k & (m & HAm & HBk)%product_key_set & HDk); [|done].
      exists m. split; [done|]. apply product_key_set; [done|]. eauto.
  - intros i j. rewrite !entry_sum_product by done.
    unfold dense_multiply.
    change (num_cols AB) with (num_cols B).
    transitivity (dense_dot (coo_entry A i)
                    (λ m, dense_dot (coo_entry B m) (λ k, coo_entry D k j) (num_cols B))
                    (num_cols A)).
    + clear -HBD HsD. induction (num_cols A) as [|n IH]; simpl; [done|].
      rewrite IH. do 2 f_equal. by apply product_entry.
    + rewrite <- dense_dot_assoc.
      apply dense_dot_ext. intros k _. symmetry. by apply product_entry.
Qed.


(** X8: [multiply] never compares [A.num_cols] with [B.num_rows].  When B
    has at least as many rows as A has columns, a run within the range of
    [IndexType] completes, and the result is the dense product taken over
    the columns of A: the surplus rows of B are ignored rather than
    reported. *)
Theorem multiply_dimension_unchecked (A B C : coo_matrix) :
  coo_wf A → coo_wf B → num_cols A ≤ num_rows B → row_sorted B →
  within_index_range A B →
  ∃ C', multiply A B C = (Some (), C') ∧
        ∀ i j, coo_entry C' i j
               = dense_multiply (num_cols A) (coo_entry A) (coo_entry B) i j.
Proof.
  intros HA HB Hle Hs Hr.
  set (A' := Coo (num_rows A) (num_rows B) (num_entries A)
                 (row_indices A) (column_indices A) (values A)).
  assert (valid_operands A' B) as Hv.
  { destruct HA as (? & ? & ? & ? & Hc). split_and!; try done.
    split_and!; try done. simpl. eapply Forall_impl; [exact Hc|]. simpl. lia. }
  change (within_index_range A' B) in Hr.
  change (multiply A B C) with (multiply A' B C).
  eexists. split; [by apply multiply_spec|].
  intros i j. rewrite coo_entry_of_stream, entry_sum_normalize.
  rewrite entry_sum_product by done.
  unfold dense_multiply. simpl.
  change (coo_entry A' i) with (coo_entry A i).
  apply dense_dot_truncate; [done|].
  intros k Hk. by apply coo_entry_out_of_cols.
Qed.

(** X9: [multiply] does not validate the column indices of A either.  On
    the general path a column index of A at or beyond [B.num_rows] makes
    the gather of lines 64-66 read [B_row_lengths] outside its bounds; the
    run stops there, before the destination has been touched. *)
Theorem multiply_column_out_of_range (A B C : coo_matrix) (n j : nat) :
  num_entries A ≠ 0 → num_entries B ≠ 0 →
  n < num_entries A → column_indices A !! n = Some j → num_rows B ≤ j →
  segment_lengths A B = None ∧ multiply A B C = (None, C).
Proof.
  intros HnA HnB Hn Hj Hout.
  assert (segment_lengths A B = None) as Hseg.
  { unfold segment_lengths. apply (gather_None _ _ _ n j); [done|done|].
    apply lookup_ge_None. by rewrite length_B_row_lengths. }
  split; [done|]. apply multiply_fault; [done|done|].
  unfold expand. by rewrite Hseg.
Qed.


(** X10: on the general path with valid operands and a run within the
    range of [IndexType], every intermediate
    position [p] below [coo_num_nonzeros] is owned by the entry
    [n = segments[p]] of A whose slice [output_ptr[n], output_ptr[n] +
    segment_lengths[n]) contains [p], and [gather_locations[p]] is
    [B_row_offsets[A.column_indices[n]] + (p - output_ptr[n])]; the former
    is a valid index into A and the latter a valid index into B. *)
Theorem expansion_positions (A B : coo_matrix) :
  valid_operands A B → num_entries A ≠ 0 → within_index_range A B →
  ∃ seg ptr T segs locs,
    segment_lengths A B = Some seg ∧
    output_ptr (num_entries A) seg = Some ptr ∧
    ptr !! num_entries A = Some T ∧
    segments (num_entries A) T ptr seg = Some segs ∧
    gather_locations A B T ptr seg segs = Some locs ∧
    length segs = T ∧ length locs = T ∧
    ∀ p n x, segs !! p = Some n → locs !! p = Some x →
      n < num_entries A ∧ x < num_entries B ∧
      ∃ start len j o,
        ptr !! n = Some start ∧ seg !! n = Some len ∧
        column_indices A !! n = Some j ∧ B_row_offsets B !! j = Some o ∧
        start ≤ p < start + len ∧ x = o + (p - start).
Proof.
  intros Hv Hn Hr.
  pose proof (within_index_range_sums_fit A B Hv Hr) as [Hsum Hpos].
  destruct Hv as ((HAr & HAc & HAv & _ & HAcol) & (HBr & HBc & HBv & _) & Hdim).
  assert (Forall (λ j, j < num_rows B) (column_indices A)) as Hcol
    by (by rewrite <- Hdim).
  assert (Forall2 (λ j l, l = 0 ∨ count_lt j (row_indices B) + l ≤ S index_max)
            (column_indices A) (row_counts A B)) as Hfit.
  { unfold row_counts. apply Forall2_fmap_r, Forall_Forall2_diag.
    eapply Forall_impl; [exact Hpos|]. done. }
  set (seg := row_counts A B) in *.
  assert (length seg = num_entries A) as Hseg
    by (unfold seg, row_counts; by rewrite length_fmap).
  set (temp := (λ j, count_lt j (row_indices B)) <$> column_indices A).
  eexists seg, _, _, _, _.
  split_and!.
  - by apply segment_lengths_spec.
  - by apply output_ptr_spec.
  - rewrite lookup_app_r by (rewrite length_prefix_sums; lia).
    by rewrite length_prefix_sums, Hseg, Nat.sub_diag.
  - by apply segments_spec.
  - by apply gather_locations_spec.
  - apply length_owners. by rewrite length_seq.
  - apply length_ranges. unfold temp. rewrite length_fmap. lia.
  - intros p n x Hsn Hlx. rewrite <- Hseg in Hsn.
    destruct (lookup_segment seg temp 0 p n x) as (m & len & o & -> & Hl & Ho & Hb & ->);
      [unfold temp; rewrite length_fmap; lia|done|done|].
    simpl. unfold temp in Ho. rewrite list_lookup_fmap in Ho.
    destruct (column_indices A !! m) as [j|] eqn:Hj; [|done].
    simpl in Ho. injection Ho as <-.
    pose proof (Forall_lookup_1 _ _ _ _ Hcol Hj) as Hjr. simpl in Hjr.
    assert (len = count_eq j (row_indices B)) as ->.
    { unfold seg, row_counts in Hl. rewrite list_lookup_fmap, Hj in Hl.
      simpl in Hl. congruence. }
    pose proof (slice_in_bounds B (row_indices B) j (le_n _)) as Hsl.
    split_and!.
    + apply lookup_lt_Some in Hl. lia.
    + lia.
    + exists (sum_list (take m seg)), (count_eq j (row_indices B)), j,
        (count_lt j (row_indices B)).
      split_and!; try done; try lia.
      * rewrite lookup_app_l
          by (rewrite length_prefix_sums; by apply lookup_lt_Some in Hl).
        rewrite lookup_prefix_sums by (by apply lookup_lt_Some in Hl). done.
      * apply B_row_offsets_lookup. lia.
Qed.


(** * Properties of the dense overload *)

(** X11: for dense operands with one cell per coordinate and
    [A.num_cols <= B.num_rows], the loop nest of lines 162-175 completes;
    the destination gets the shape (A.num_rows, B.num_cols), again one cell
    per coordinate, and its cell (i, j) holds the sum over
    [k < A.num_cols] of A(i,k) * B(k,j). *)
Theorem dense_loop_cells (A B C : Dense.array2d) :
  Dense.wf A → Dense.wf B → Dense.num_cols A ≤ Dense.num_rows B →
  ∃ C', Dense.multiply A B C = Some C' ∧
        Dense.num_rows C' = Dense.num_rows A ∧
        Dense.num_cols C' = Dense.num_cols B ∧
        Dense.wf C' ∧
        ∀ i j, i < Dense.num_rows A → j < Dense.num_cols B →
               Dense.get C' i j
               = Some (dense_multiply (Dense.num_cols A)
                         (Dense.cell A) (Dense.cell B) i j).
Proof.
  intros HA HB Hle. eexists. split; [by apply dense_multiply_grid|].
  split_and!; [done|done|apply dense_product_wf|].
  intros i j Hi Hj. unfold Dense.get. simpl. by apply grid_lookup.
Qed.

(** X12: the dense overload overwrites its destination completely: under
    the same conditions the result is the same whatever shape and cells
    the destination had before the call. *)
Theorem dense_destination_overwritten (A B C C0 : Dense.array2d) :
  Dense.wf A → Dense.wf B → Dense.num_cols A ≤ Dense.num_rows B →
  Dense.multiply A B C0 = Dense.multiply A B C.
Proof. intros HA HB Hle. by rewrite !dense_multiply_grid. Qed.

(** X13: the dense overload does not check the inner dimension either.
    When A has more columns than B has rows and the result has at least
    one cell, the accumulation of the first cell reads [B(k,j)] with
    [k = B.num_rows], outside of B's cells, and the run stops there. *)
Theorem dense_dimension_mismatch (A B C : Dense.array2d) :
  Dense.wf A → Dense.wf B →
  Dense.num_rows B < Dense.num_cols A →
  0 < Dense.num_rows A → 0 < Dense.num_cols B →
  Dense.get B (Dense.num_rows B) 0 = None ∧ Dense.multiply A B C = None.
Proof.
  intros HA HB Hlt Hr Hc. split; [by apply dense_get_below|].
  unfold Dense.multiply, Dense.resize. cbn [Dense.num_rows].
  destruct (Dense.num_rows A) as [|r] eqn:Er; [lia|].
  cbn [seq for_each Dense.num_cols].
  destruct (Dense.num_cols B) as [|c] eqn:Ec; [lia|].
  cbn [seq for_each]. rewrite dense_dot_fault by (done || lia). done.
Qed.

(** X14: the two overloads agree: for valid COO operands with B sorted by
    row and a sparse run within the range of [IndexType], running the dense
    loop nest on the dense forms of A and B yields
    the dense form of the matrix that the sparse [multiply] produces. *)
Theorem sparse_dense_agree (A B C : coo_matrix) (D : Dense.array2d) :
  valid_operands A B → row_sorted B → within_index_range A B →
  ∃ C', multiply A B C = (Some (), C') ∧
        Dense.multiply (to_array2d A) (to_array2d B) D = Some (to_array2d C').
Proof.
  intros Hv Hs Hr. eexists. split; [by apply multiply_spec|].
  pose proof Hv as (HA & HB & Hdim).
  rewrite dense_multiply_grid; [|apply to_array2d_wf..|simpl; lia].
  unfold to_array2d.
  cbn [num_rows num_cols coo_of_stream Dense.num_rows Dense.num_cols].
  do 2 f_equal. apply grid_ext. intros i j Hi Hj.
  change (Coo (num_rows A) (num_cols B) _ _ _ _)
    with (coo_of_stream (num_rows A) (num_cols B) (normalize (partial_products A B))).
  rewrite product_entry by done. unfold dense_multiply.
  apply dense_dot_ext2; intros k Hk.
  - by apply dense_cell_grid.
  - apply dense_cell_grid; [lia|done].
Qed.

(** X15: the dense product is associative: for dense operands with one
    cell per coordinate, [P.num_cols <= Q.num_rows] and
    [Q.num_cols <= R.num_rows], multiplying the product of P and Q by R and
    multiplying P by the product of Q and R give the same matrix. *)
Theorem dense_loop_associative (P Q R C : Dense.array2d) :
  Dense.wf P → Dense.wf Q → Dense.wf R →
  Dense.num_cols P ≤ Dense.num_rows Q → Dense.num_cols Q ≤ Dense.num_rows R →
  ∃ PQ QR S,
    Dense.multiply P Q C = Some PQ ∧
    Dense.multiply Q R C = Some QR ∧
    Dense.multiply PQ R C = Some S ∧
    Dense.multiply P QR C = Some S.
Proof.
  intros HP HQ HR HPQ HQR. eexists _, _, _.
  split_and!; [by apply dense_multiply_grid|by apply dense_multiply_grid|..].
  - apply dense_multiply_grid; [apply dense_product_wf|done|done].
  - rewrite dense_multiply_grid; [|done|apply dense_product_wf|done].
    cbn [Dense.num_rows Dense.num_cols]. do 2 f_equal.
    apply grid_ext. intros i l Hi Hl. unfold dense_multiply.
    rewrite (dense_dot_ext2 _ (Dense.cell P i) _
               (λ m, dense_dot (Dense.cell Q m) (λ k, Dense.cell R k l)
                               (Dense.num_cols Q)) (Dense.num_cols P));
      [|done|intros m Hm; apply dense_cell_grid; lia].
    rewrite <- dense_dot_assoc.
    apply dense_dot_ext. intros k Hk. symmetry. by apply dense_cell_grid.
Qed.


(** * Properties of the sort and merge stages and of the emptiness test *)

(** X16: the two sorting passes of lines 132-137 only reorder the stream:
    for three arrays of equal length the sorted arrays have that length,
    hold a permutation of the original triplets, and are ascending in the
    lexicographic order on (row, column). *)
Theorem sort_IJ_sorted_permutation (I0 J0 : list nat) (V0 : list Z)
    (I1 J1 : list nat) (V1 : list Z) :
  length I0 = length J0 → length V0 = length J0 →
  sort_IJ I0 J0 V0 = (I1, J1, V1) →
  length I1 = length J0 ∧ length J1 = length J0 ∧ length V1 = length J0 ∧
  stream I1 J1 V1 ≡ₚ stream I0 J0 V0 ∧
  StronglySorted lex_le (zip I1 J1).
Proof.
  intros HI HV. rewrite sort_IJ_stream. cbv zeta. intros [= <- <- <-].
  set (s := sort_stream (stream I0 J0 V0)).
  assert (length s = length J0) as Hlen.
  { unfold s. rewrite (Permutation_length (sort_stream_Permutation _)).
    by apply length_stream. }
  rewrite !length_fmap, stream_unzip, zip_fst_snd.
  split_and!; try done; [apply sort_stream_Permutation|].
  apply (StronglySorted_fmap fst (λ x y : triplet, lex_le x.1 y.1)); [done|].
  apply sort_stream_sorted.
Qed.

(** X17: the sort and merge of lines 132-147 keep, for every stream, the
    value at every coordinate and the set of coordinates; the three result
    arrays have [NNZ] slots, and [NNZ] is at most the stream's length. *)
Theorem sort_merge_preserves (I0 J0 : list nat) (V0 : list Z)
    (I2 J2 : list nat) (V2 : list Z) (NNZ : nat) :
  sort_merge I0 J0 V0 = (I2, J2, V2, NNZ) →
  length I2 = NNZ ∧ length J2 = NNZ ∧ length V2 = NNZ ∧
  NNZ ≤ length (stream I0 J0 V0) ∧
  (∀ i j, entry_sum (stream I2 J2 V2) i j = entry_sum (stream I0 J0 V0) i j) ∧
  (∀ k, k ∈ zip I2 J2 ↔ k ∈ (stream I0 J0 V0).*1).
Proof.
  rewrite sort_merge_stream. cbv zeta. intros [= <- <- <- <-].
  rewrite !length_fmap, stream_unzip, zip_fst_snd.
  split_and!; try done.
  - apply length_normalize.
  - intros i j. apply entry_sum_normalize.
  - intros k. apply normalize_key_set.
Qed.

(** X18: what the emptiness test of line 47 protects.  With an empty A the
    general path would fault, because line 73 reads a slot of the empty
    array [segment_lengths]; with a nonempty A and an empty B it would
    complete with three empty arrays, which is what the fast path returns. *)
Theorem general_path_on_empty_operands (A B : coo_matrix) :
  (num_entries A = 0 → expand A B = None) ∧
  (valid_operands A B → num_entries A ≠ 0 → num_entries B = 0 →
   expand A B = Some ([], [], [])).
Proof.
  split.
  - intros H. unfold expand, segment_lengths, output_ptr, output_ptr_scan,
      trailing_write. rewrite H. reflexivity.
  - intros Hv HnA HnB. pose proof Hv as (HA & HB & Hdim).
    assert (sums_fit A B) as Hfit.
    { apply sums_fit_zero, Forall_forall. intros j _.
      destruct HB as (HBr & _). rewrite HnB in HBr.
      apply nil_length_inv in HBr. by rewrite HBr. }
    destruct (expand_stream A B HA HB Hdim HnA Hfit) as (I0 & J0 & V0 & He & Hs).
    rewrite partial_products_empty in Hs by auto.
    destruct (expand_lengths _ _ _ _ _ He) as [HI HV].
    pose proof (length_stream _ _ _ HI HV) as Hlen. rewrite Hs in Hlen.
    simpl in Hlen.
    destruct I0, J0, V0; simpl in *; try lia. done.
Qed.

(** ** The row summary of a sorted operand *)

Lemma sorted_position rows r : ∀ m,
  StronglySorted le rows →
  rows !! m = Some r ↔ count_lt r rows ≤ m < count_lt r rows + count_eq r rows.
Proof.
  induction rows as [|x rows IH]; intros m Hs.
  { rewrite lookup_nil. unfold count_lt, count_eq. simpl. split; [done|lia]. }
  apply StronglySorted_inv in Hs as [Hs Hall].
  rewrite count_lt_cons, count_eq_cons.
  destruct (lt_eq_lt_dec x r) as [[Hlt|Heq]|Hgt].
  - rewrite (decide_True (P := x < r)), (decide_False (P := x = r)) by lia.
    destruct m as [|m]; simpl.
    + split; [intros [= ->]; lia|lia].
    + rewrite IH by done. lia.
  - subst x.
    rewrite (decide_False (P := r < r)), (decide_True (P := r = r)) by lia.
    rewrite (count_lt_0 r rows) by done.
    destruct m as [|m]; simpl.
    + split; [lia|done].
    + rewrite IH by done. rewrite (count_lt_0 r rows) by done. lia.
  - rewrite (decide_False (P := x < r)), (decide_False (P := x = r)) by lia.
    assert (Forall (λ y, r < y) rows) as Hk.
    { eapply Forall_impl; [done|]. simpl. lia. }
    rewrite count_lt_0, count_eq_0
      by (done || (eapply Forall_impl; [exact Hk|]; simpl; lia)).
    split; [|lia]. intros Hm.
    apply list_elem_of_lookup_2, elem_of_cons in Hm as [->|Hin]; [lia|].
    rewrite Forall_forall in Hk. specialize (Hk r Hin). lia.
Qed.

(** X19: the row summary of lines 54-60 on a well-formed B sorted by row
    (with [indices_to_offsets] as section 4.1 describes it):
    [B_row_offsets] has [B.num_rows + 1] slots, starts at 0 and ends at
    [B.num_entries]; the subtraction of line 60 never goes below zero, the
    row lengths add up to [B.num_entries], and the entries of row [r] are
    exactly the slots from [B_row_offsets[r]] up to [B_row_offsets[r+1]]. *)
Theorem row_summary (B : coo_matrix) :
  coo_wf B → row_sorted B →
  length (B_row_offsets B) = num_rows B + 1 ∧
  length (B_row_lengths B) = num_rows B ∧
  B_row_offsets B !! 0 = Some 0 ∧
  B_row_offsets B !! num_rows B = Some (num_entries B) ∧
  sum_list (B_row_lengths B) = num_entries B ∧
  ∀ r, r < num_rows B →
    ∃ o len,
      B_row_offsets B !! r = Some o ∧
      B_row_lengths B !! r = Some len ∧
      B_row_offsets B !! (r + 1) = Some (o + len) ∧
      ∀ m, row_indices B !! m = Some r ↔ o ≤ m < o + len.
Proof.
  intros (Hr & Hc & Hv & Hrow & _) Hs.
  split_and!.
  - by rewrite B_row_offsets_eq, length_fmap, length_seq.
  - apply length_B_row_lengths.
  - rewrite B_row_offsets_lookup by lia. f_equal.
    apply (count_lt_0 0). apply Forall_forall. intros; lia.
  - rewrite B_row_offsets_lookup by lia. rewrite count_lt_all by done.
    by rewrite Hr.
  - rewrite B_row_lengths_eq, sum_count_eq, count_lt_all by done. done.
  - intros r Hlt.
    exists (count_lt r (row_indices B)), (count_eq r (row_indices B)).
    split_and!.
    + apply B_row_offsets_lookup. lia.
    + by apply B_row_lengths_lookup.
    + rewrite B_row_offsets_lookup by lia. f_equal.
      rewrite Nat.add_1_r. apply count_lt_S.
    + intros m. apply sorted_position. by apply (Sorted_StronglySorted _).
Qed.

End properties.

(** * Concrete instances *)

(** The theorems above hold for every index type; they are instantiated
    below with [unsigned char]. *)
#[global] Existing Instance uint8.

(** ** The claims on concrete operands *)

Lemma multiply_dense_product_witness :
  ∃ C', multiply wide_A wide_B used_C = (Some (), C') ∧
        ∀ i j, coo_entry C' i j
               = dense_multiply (num_cols wide_A) (coo_entry wide_A) (coo_entry wide_B) i j.
Proof. apply (multiply_dense_product wide_A wide_B used_C); solve_concrete. Defined.

(** Beyond the range of the index type the result is not the dense
    product: with [unsigned char] indices the outer product of [tall_A] and
    [long_B] has five hundred partial products; the last slot of
    [output_ptr] holds 244, the run completes, and the result has lost rows
    1 and 2 of the product. *)
Lemma multiply_dense_product_overflow :
  valid_operands tall_A long_B ∧ row_sorted long_B ∧
  num_entries tall_A ≤ index_max ∧ num_entries long_B ≤ index_max ∧
  ∃ C', multiply tall_A long_B used_C = (Some (), C') ∧
        num_entries C' = 242 ∧
        coo_entry C' 1 0 = 0%Z ∧
        dense_multiply (num_cols tall_A) (coo_entry tall_A) (coo_entry long_B) 1 0
        = 1%Z ∧
        coo_entry C' 1 0
        ≠ dense_multiply (num_cols tall_A) (coo_entry tall_A) (coo_entry long_B) 1 0.
Proof.
  split_and!; [solve_concrete..|].
  match eval vm_compute in (multiply tall_A long_B used_C) with
  | (_, ?c) => exists c
  end.
  split_and!; [vm_compute; reflexivity..|vm_compute; discriminate].
Qed.

Lemma multiply_strictly_sorted_witness :
  (∃ C', multiply tall_A long_B used_C = (Some (), C') ∧
         StronglySorted lex_lt (zip (row_indices C') (column_indices C')) ∧
         NoDup (zip (row_indices C') (column_indices C'))) ∧
  (∃ C', multiply wide_A wide_B used_C = (Some (), C') ∧
         StronglySorted lex_lt (zip (row_indices C') (column_indices C')) ∧
         NoDup (zip (row_indices C') (column_indices C'))) ∧
  (StronglySorted lex_lt (zip [0; 1; 2; 2] [0; 1; 1; 2]) ∧
   NoDup (zip [0; 1; 2; 2] [0; 1; 1; 2])).
Proof.
  pose proof (multiply_strictly_sorted tall_A long_B used_C) as (H0 & _ & _).
  pose proof (multiply_strictly_sorted wide_A wide_B used_C) as (_ & H1 & H2).
  split; [|split].
  - match eval vm_compute in (multiply tall_A long_B used_C) with
    | (_, ?c) => exists c
    end.
    split; [vm_compute; reflexivity|]. apply H0. vm_compute. reflexivity.
  - apply H1; solve_concrete.
  - apply (H2 (row_indices wide_A) (column_indices wide_A) (values wide_A)
              [0; 1; 2; 2] [0; 1; 1; 2] [7; 4; 1; 3]%Z 4).
    reflexivity.
Defined.

Lemma expansion_refines_sequential_witness :
  ∃ I0 J0 V0 s,
    expand wide_A wide_B = Some (I0, J0, V0) ∧
    expansion_sequential wide_A wide_B = Some s ∧
    length I0 = length s ∧ length J0 = length s ∧ length V0 = length s ∧
    stream I0 J0 V0 = s ∧
    stream I0 J0 V0 ≡ₚ s.
Proof. apply (expansion_refines_sequential wide_A wide_B); solve_concrete. Defined.

(** Beyond the range of the index type the two expansions differ: with
    [unsigned char] indices on [tall_A] and [long_B] the data-parallel
    expansion completes with arrays of 244 slots, the sequential expansion
    has 500 triplets. *)
Lemma expansion_overflow :
  valid_operands tall_A long_B ∧ num_entries tall_A ≠ 0 ∧
  ∃ I0 J0 V0 s,
    expand tall_A long_B = Some (I0, J0, V0) ∧
    expansion_sequential tall_A long_B = Some s ∧
    length I0 = 244 ∧ length J0 = 244 ∧ length V0 = 244 ∧ length s = 500 ∧
    ¬ stream I0 J0 V0 ≡ₚ s.
Proof.
  split_and!; [solve_concrete..|].
  match eval vm_compute in (expand tall_A long_B) with
  | Some (?i, ?j, ?v) => exists i, j, v
  end.
  match eval vm_compute in (expansion_sequential tall_A long_B) with
  | Some ?s => exists s
  end.
  split_and!; [vm_compute; reflexivity..|].
  intros Hp%Permutation_length. vm_compute in Hp. discriminate.
Qed.

Lemma destination_all_or_nothing_witness :
  (multiply stray_A scenario_B used_C = (None, used_C) ∧ used_C = used_C) ∧
  (multiply scenario_A scenario_B used_C
   = (Some (), Coo 2 2 2 [0; 1] [1; 0] [3; 8]%Z) ∧
   multiply scenario_A scenario_B (coo_matrix_new 1 1 1)
   = (Some (), Coo 2 2 2 [0; 1] [1; 0] [3; 8]%Z)).
Proof.
  pose proof (destination_all_or_nothing stray_A scenario_B used_C) as (Hf & _ & _).
  pose proof (destination_all_or_nothing scenario_A scenario_B used_C) as (_ & _ & Hs).
  split; split;
    [reflexivity | apply Hf; reflexivity | reflexivity | apply Hs; reflexivity].
Defined.

Lemma multiply_empty_operand_witness :
  multiply (Coo 3 2 0 [] [] []) scenario_B used_C
  = (Some (), Coo 3 2 0 [] [] []).
Proof.
  apply (multiply_empty_operand (Coo 3 2 0 [] [] []) scenario_B used_C).
  left. reflexivity.
Defined.

Lemma multiply_shape_witness :
  (∃ C', multiply tall_A long_B used_C = (Some (), C') ∧
         num_rows C' = 5 ∧ num_cols C' = 100) ∧
  (∃ C', multiply wide_A wide_B used_C = (Some (), C') ∧
         num_rows C' = 3 ∧ num_cols C' = 4).
Proof.
  split.
  - match eval vm_compute in (multiply tall_A long_B used_C) with
    | (_, ?c) => exists c
    end.
    split; [vm_compute; reflexivity|].
    apply (proj1 (multiply_shape tall_A long_B used_C eq_refl)).
    vm_compute. reflexivity.
  - apply (proj2 (multiply_shape wide_A wide_B used_C eq_refl)); solve_concrete.
Defined.

Lemma multiply_no_partial_products_witness :
  (seg ← segment_lengths hollow_A hollow_B;
   ptr ← output_ptr (num_entries hollow_A) seg;
   ptr !! num_entries hollow_A) = Some 0 ∧
  multiply hollow_A hollow_B used_C = (Some (), Coo 2 2 0 [] [] []).
Proof.
  apply (multiply_no_partial_products hollow_A hollow_B used_C); solve_concrete.
Defined.

Lemma output_ptr_prefix_sums_witness :
  ∃ scanned ptr,
    output_ptr_scan 5 [0; 2; 2; 0; 2] = Some scanned ∧
    trailing_write 5 scanned [0; 2; 2; 0; 2] = Some ptr ∧
    output_ptr 5 [0; 2; 2; 0; 2] = Some ptr ∧
    length ptr = 5 + 1 ∧
    (∀ k, k < 5 → ptr !! k = Some (sum_list (take k [0; 2; 2; 0; 2]))) ∧
    ptr !! 5 = Some (sum_list [0; 2; 2; 0; 2]) ∧
    scanned !! 5 = Some 0 ∧
    (∀ a b, scanned !! (5 - 1) = Some a →
            [0; 2; 2; 0; 2] !! (5 - 1) = Some b →
            a + b = sum_list [0; 2; 2; 0; 2]).
Proof.
  apply (output_ptr_prefix_sums wide_A wide_B [0; 2; 2; 0; 2]);
    [simpl; lia|reflexivity|vm_compute; lia].
Defined.

(** Beyond the range of the index type [output_ptr] does not hold the
    prefix sums: with [unsigned char] indices on [tall_A] and [long_B] the
    five segment lengths are 100 each; the prefix sums 300 and 400 are
    stored as 44 and 144, and the trailing write stores 244 in the last
    slot, not the sum 500 of the segment lengths. *)
Lemma output_ptr_overflow :
  num_entries tall_A ≠ 0 ∧
  segment_lengths tall_A long_B = Some (replicate 5 100) ∧
  output_ptr (num_entries tall_A) (replicate 5 100)
  = Some [0; 100; 200; 44; 144; 244] ∧
  sum_list (take 3 (replicate 5 100)) = 300 ∧
  sum_list (replicate 5 100) = 500 ∧
  ¬ ∃ ptr, output_ptr (num_entries tall_A) (replicate 5 100) = Some ptr ∧
           ptr !! num_entries tall_A = Some (sum_list (replicate 5 100)).
Proof.
  split_and!; [simpl; lia|vm_compute; reflexivity..|].
  intros (ptr & Hp & Hlast). vm_compute in Hp. injection Hp as <-.
  vm_compute in Hlast. discriminate.
Qed.

Lemma multiply_identity_witness :
  ∃ C',
    multiply wide_A (identity (num_cols wide_A)) used_C = (Some (), C') ∧
    (num_rows C' = num_rows wide_A ∧ num_cols C' = num_cols wide_A) ∧
    coo_wf C' ∧
    StronglySorted lex_lt (zip (row_indices C') (column_indices C')) ∧
    NoDup (zip (row_indices C') (column_indices C')) ∧
    (∀ i j, (i, j) ∈ zip (row_indices C') (column_indices C')
            ↔ (i, j) ∈ zip (row_indices wide_A) (column_indices wide_A)) ∧
    (∀ i j v, (i, j, v) ∈ coo_triplets C' → v = coo_entry wide_A i j) ∧
    (∀ i j, coo_entry C' i j = coo_entry wide_A i j) ∧
    (NoDup (zip (row_indices wide_A) (column_indices wide_A)) →
     coo_triplets C' ≡ₚ coo_triplets wide_A) ∧
    sort_merge (row_indices wide_A) (column_indices wide_A) (values wide_A)
    = (row_indices C', column_indices C', values C', num_entries C').
Proof. apply (multiply_identity wide_A used_C); solve_concrete. Defined.

Lemma trailing_write_in_bounds_witness :
  1 ≤ num_entries wide_A ∧
  ∃ scanned,
    output_ptr_scan (num_entries wide_A) [0; 2; 2; 0; 2] = Some scanned ∧
    length scanned = num_entries wide_A + 1 ∧
    length [0; 2; 2; 0; 2] = num_entries wide_A ∧
    is_Some (scanned !! (num_entries wide_A - 1)) ∧
    is_Some ([0; 2; 2; 0; 2] !! (num_entries wide_A - 1)) ∧
    is_Some (trailing_write (num_entries wide_A) scanned [0; 2; 2; 0; 2]).
Proof.
  apply (trailing_write_in_bounds wide_A wide_B [0; 2; 2; 0; 2]);
    [simpl; lia|reflexivity].
Defined.

(** ** Further properties on concrete operands *)

Lemma multiply_result_operand_witness :
  (∃ C', multiply tall_A long_B used_C = (Some (), C') ∧
         coo_wf C' ∧ row_sorted C') ∧
  (∃ C', multiply wide_A wide_B used_C = (Some (), C') ∧
         coo_wf C' ∧ row_sorted C').
Proof.
  split.
  - match eval vm_compute in (multiply tall_A long_B used_C) with
    | (_, ?c) => exists c
    end.
    split; [vm_compute; reflexivity|].
    apply (proj1 (multiply_result_operand tall_A long_B used_C
                    ltac:(solve_concrete) ltac:(solve_concrete))).
    vm_compute. reflexivity.
  - apply (proj2 (multiply_result_operand wide_A wide_B used_C
                    ltac:(solve_concrete) ltac:(solve_concrete)));
      solve_concrete.
Defined.

Lemma multiply_entry_count_witness :
  ∃ C', multiply wide_A wide_B used_C = (Some (), C') ∧
        num_entries C' ≤ num_rows wide_A * num_cols wide_B ∧
        (num_entries wide_A ≠ 0 → num_entries wide_B ≠ 0 →
         ∃ T, (seg ← segment_lengths wide_A wide_B;
               ptr ← output_ptr (num_entries wide_A) seg;
               ptr !! num_entries wide_A) = Some T ∧
              num_entries C' ≤ T).
Proof. apply (multiply_entry_count wide_A wide_B used_C); solve_concrete. Defined.

Lemma multiply_sparsity_pattern_witness :
  ∃ C', multiply wide_A wide_B used_C = (Some (), C') ∧
        ∀ i j, (i, j) ∈ zip (row_indices C') (column_indices C') ↔
               ∃ k, (i, k) ∈ zip (row_indices wide_A) (column_indices wide_A) ∧
                    (k, j) ∈ zip (row_indices wide_B) (column_indices wide_B).
Proof. apply (multiply_sparsity_pattern wide_A wide_B used_C); solve_concrete. Defined.

Lemma multiply_entry_order_witness :
  multiply shuffled_A shuffled_B used_C = multiply wide_A wide_B used_C.
Proof.
  apply (multiply_entry_order wide_A wide_B shuffled_A shuffled_B used_C);
    try solve_concrete; apply (bool_decide_unpack _); vm_compute; exact I.
Defined.

Lemma multiply_normal_form_witness :
  ∃ C', multiply wide_A wide_B used_C = (Some (), C') ∧
        sort_merge (row_indices C') (column_indices C') (values C')
        = (row_indices C', column_indices C', values C', num_entries C') ∧
        ∀ C0, multiply C' (identity (num_cols C')) C0 = (Some (), C').
Proof. apply (multiply_normal_form wide_A wide_B used_C); solve_concrete. Defined.


(** Without the bound on [B.num_entries] the identity is not neutral on the
    left: with [unsigned char] indices and the single row [broad_B] of 300
    entries the intermediate count 300 is stored as 44, and the result
    keeps 44 of B's 300 entries. *)
Lemma identity_left_overflow :
  coo_wf broad_B ∧ row_sorted broad_B ∧
  ∃ C' I2 J2 V2,
    multiply (identity (num_rows broad_B)) broad_B used_C = (Some (), C') ∧
    num_entries C' = 44 ∧
    sort_merge (row_indices broad_B) (column_indices broad_B) (values broad_B)
    = (I2, J2, V2, 300).
Proof.
  split_and!; [solve_concrete..|].
  match eval vm_compute in (multiply (identity (num_rows broad_B)) broad_B used_C) with
  | (_, ?c) => exists c
  end.
  match eval vm_compute in
    (sort_merge (row_indices broad_B) (column_indices broad_B) (values broad_B)) with
  | (?i, ?j, ?v, _) => exists i, j, v
  end.
  split_and!; vm_compute; reflexivity.
Qed.

Lemma multiply_associative_witness :
  ∃ AB BD R,
    multiply wide_A wide_B used_C = (Some (), AB) ∧
    multiply wide_B tail_D used_C = (Some (), BD) ∧
    multiply AB tail_D used_C = (Some (), R) ∧
    multiply wide_A BD used_C = (Some (), R).
Proof.
  destruct (multiply_associative wide_A wide_B tail_D used_C)
    as (AB & BD & HAB & HBD & HR); [solve_concrete..|].
  vm_compute in HAB. injection HAB as <-.
  vm_compute in HBD. injection HBD as <-.
  destruct HR as (R & HL & HR); [solve_concrete..|].
  eexists _, _, R. split_and!; [vm_compute; reflexivity..|exact HL|exact HR].
Defined.

Lemma multiply_dimension_unchecked_witness :
  ∃ C', multiply hollow_A wide_B used_C = (Some (), C') ∧
        ∀ i j, coo_entry C' i j
               = dense_multiply (num_cols hollow_A) (coo_entry hollow_A)
                                (coo_entry wide_B) i j.
Proof.
  apply (multiply_dimension_unchecked hollow_A wide_B used_C); solve_concrete.
Defined.

Lemma multiply_column_out_of_range_witness :
  segment_lengths stray_A scenario_B = None ∧
  multiply stray_A scenario_B used_C = (None, used_C).
Proof.
  apply (multiply_column_out_of_range stray_A scenario_B used_C 0 3);
    solve_concrete.
Defined.

Lemma expansion_positions_witness :
  ∃ seg ptr T segs locs,
    segment_lengths wide_A wide_B = Some seg ∧
    output_ptr (num_entries wide_A) seg = Some ptr ∧
    ptr !! num_entries wide_A = Some T ∧
    segments (num_entries wide_A) T ptr seg = Some segs ∧
    gather_locations wide_A wide_B T ptr seg segs = Some locs ∧
    length segs = T ∧ length locs = T ∧
    ∀ p n x, segs !! p = Some n → locs !! p = Some x →
      n < num_entries wide_A ∧ x < num_entries wide_B ∧
      ∃ start len j o,
        ptr !! n = Some start ∧ seg !! n = Some len ∧
        column_indices wide_A !! n = Some j ∧ B_row_offsets wide_B !! j = Some o ∧
        start ≤ p < start + len ∧ x = o + (p - start).
Proof. apply (expansion_positions wide_A wide_B); solve_concrete. Defined.

(** ** The dense overload on concrete operands *)

Lemma dense_loop_cells_witness :
  ∃ C', Dense.multiply dense_P dense_Q dense_used = Some C' ∧
        Dense.num_rows C' = Dense.num_rows dense_P ∧
        Dense.num_cols C' = Dense.num_cols dense_Q ∧
        Dense.wf C' ∧
        ∀ i j, i < Dense.num_rows dense_P → j < Dense.num_cols dense_Q →
               Dense.get C' i j
               = Some (dense_multiply (Dense.num_cols dense_P)
                         (Dense.cell dense_P) (Dense.cell dense_Q) i j).
Proof.
  apply (dense_loop_cells dense_P dense_Q dense_used);
    [reflexivity|reflexivity|simpl; lia].
Defined.

Lemma dense_destination_overwritten_witness :
  Dense.multiply dense_P dense_Q (Dense.Array2d 0 0 [])
  = Dense.multiply dense_P dense_Q dense_used.
Proof.
  apply (dense_destination_overwritten dense_P dense_Q dense_used
           (Dense.Array2d 0 0 []));
    [reflexivity|reflexivity|simpl; lia].
Defined.

Lemma dense_dimension_mismatch_witness :
  Dense.get dense_P (Dense.num_rows dense_P) 0 = None ∧
  Dense.multiply dense_P dense_P dense_used = None.
Proof.
  apply (dense_dimension_mismatch dense_P dense_P dense_used);
    [reflexivity|reflexivity|simpl; lia..].
Defined.

Lemma sparse_dense_agree_witness :
  ∃ C', multiply wide_A wide_B used_C = (Some (), C') ∧
        Dense.multiply (to_array2d wide_A) (to_array2d wide_B) dense_used
        = Some (to_array2d C').
Proof.
  apply (sparse_dense_agree wide_A wide_B used_C dense_used); solve_concrete.
Defined.

Lemma dense_loop_associative_witness :
  ∃ PQ QR S,
    Dense.multiply dense_P dense_Q dense_used = Some PQ ∧
    Dense.multiply dense_Q dense_P dense_used = Some QR ∧
    Dense.multiply PQ dense_P dense_used = Some S ∧
    Dense.multiply dense_P QR dense_used = Some S.
Proof.
  apply (dense_loop_associative dense_P dense_Q dense_P dense_used);
    [reflexivity|reflexivity|reflexivity|simpl; lia|simpl; lia].
Defined.

(** ** The sort and merge stages on concrete arrays *)

Lemma sort_IJ_sorted_permutation_witness :
  length [0; 0; 1; 2; 2] = length (column_indices wide_A) ∧
  length [0; 0; 1; 1; 2] = length (column_indices wide_A) ∧
  length [2; 5; 4; 1; 3]%Z = length (column_indices wide_A) ∧
  stream [0; 0; 1; 2; 2] [0; 0; 1; 1; 2] [2; 5; 4; 1; 3]%Z
  ≡ₚ stream (row_indices wide_A) (column_indices wide_A) (values wide_A) ∧
  StronglySorted lex_le (zip [0; 0; 1; 2; 2] [0; 0; 1; 1; 2]).
Proof.
  apply (sort_IJ_sorted_permutation
    (row_indices wide_A) (column_indices wide_A) (values wide_A)
    [0; 0; 1; 2; 2] [0; 0; 1; 1; 2] [2; 5; 4; 1; 3]%Z); reflexivity.
Defined.

Lemma sort_merge_preserves_witness :
  length [0; 1; 2; 2] = 4 ∧ length [0; 1; 1; 2] = 4 ∧ length [7; 4; 1; 3]%Z = 4 ∧
  4 ≤ length (stream (row_indices wide_A) (column_indices wide_A) (values wide_A)) ∧
  (∀ i j, entry_sum (stream [0; 1; 2; 2] [0; 1; 1; 2] [7; 4; 1; 3]%Z) i j
          = entry_sum (stream (row_indices wide_A) (column_indices wide_A)
                              (values wide_A)) i j) ∧
  (∀ k, k ∈ zip [0; 1; 2; 2] [0; 1; 1; 2] ↔
        k ∈ (stream (row_indices wide_A) (column_indices wide_A) (values wide_A)).*1).
Proof.
  apply (sort_merge_preserves
    (row_indices wide_A) (column_indices wide_A) (values wide_A)
    [0; 1; 2; 2] [0; 1; 1; 2] [7; 4; 1; 3]%Z 4).
  reflexivity.
Defined.

Lemma general_path_on_empty_operands_witness :
  expand (Coo 3 2 0 [] [] []) scenario_B = None ∧
  expand hollow_A (Coo 2 2 0 [] [] []) = Some ([], [], []).
Proof.
  pose proof (general_path_on_empty_operands (Coo 3 2 0 [] [] []) scenario_B)
    as [H1 _].
  pose proof (general_path_on_empty_operands hollow_A (Coo 2 2 0 [] [] []))
    as [_ H2].
  split; [apply H1; reflexivity|apply H2; solve_concrete].
Defined.

Lemma row_summary_witness :
  length (B_row_offsets wide_B) = num_rows wide_B + 1 ∧
  length (B_row_lengths wide_B) = num_rows wide_B ∧
  B_row_offsets wide_B !! 0 = Some 0 ∧
  B_row_offsets wide_B !! num_rows wide_B = Some (num_entries wide_B) ∧
  sum_list (B_row_lengths wide_B) = num_entries wide_B ∧
  ∀ r, r < num_rows wide_B →
    ∃ o len,
      B_row_offsets wide_B !! r = Some o ∧
      B_row_lengths wide_B !! r = Some len ∧
      B_row_offsets wide_B !! (r + 1) = Some (o + len) ∧
      ∀ m, row_indices wide_B !! m = Some r ↔ o ≤ m < o + len.
Proof. apply (row_summary wide_B); solve_concrete. Defined.

(** ** Runs beyond the range of the index type *)

(** The scans keep their sums in [IndexType] objects: with [unsigned char]
    the prefix sum 300 is stored as 44, and so is the sum 300 within a
    segment. *)
Lemma scans_wrap :
  exclusive_scan [200; 100; 5] 0 [0; 0; 0; 0] = Some [0; 200; 44; 0] ∧
  inclusive_segmented_scan [200; 100; 1; 7] [4; 4; 4; 5] = Some [200; 44; 45; 7].
Proof. split; reflexivity. Qed.

(** With [signed char] indices the outer product of [dozen_A] and
    [eleven_B] has 132 partial products: the trailing write stores
    121 + 11 as the bit pattern 132, that is -124, the allocation of
    [segments] with that size throws, and the destination is left
    untouched. *)
Lemma signed_overflow_aborts :
  valid_operands dozen_A eleven_B ∧ row_sorted eleven_B ∧
  segment_lengths dozen_A eleven_B = Some (replicate 12 11) ∧
  output_ptr (ix := int8) 12 (replicate 12 11)
  = Some [0; 11; 22; 33; 44; 55; 66; 77; 88; 99; 110; 121; 132] ∧
  ¬ 132 ≤ index_max (IndexType := int8) ∧
  allocate (ix := int8) 132 0 = None ∧
  expand (ix := int8) dozen_A eleven_B = None ∧
  multiply (ix := int8) dozen_A eleven_B used_C = (None, used_C).
Proof.
  split_and!; [solve_concrete..|vm_compute; reflexivity|vm_compute; reflexivity
              |vm_compute; lia|reflexivity|vm_compute; reflexivity
              |vm_compute; reflexivity].
Qed.

(** Beyond the range of the index type the result depends on the order in
    which A stores its entries: with [unsigned char] indices [tall_A] keeps
    row 0 of the product and loses row 1, [swapped_A] keeps row 1 and loses
    row 0. *)
Lemma entry_order_overflow :
  coo_triplets swapped_A ≡ₚ coo_triplets tall_A ∧
  ∃ C1 C2,
    multiply tall_A long_B used_C = (Some (), C1) ∧
    multiply swapped_A long_B used_C = (Some (), C2) ∧
    coo_entry C1 0 0 = 1%Z ∧ coo_entry C1 1 0 = 0%Z ∧
    coo_entry C2 0 0 = 0%Z ∧ coo_entry C2 1 0 = 1%Z.
Proof.
  split; [apply (bool_decide_unpack _); vm_compute; exact I|].
  match eval vm_compute in (multiply tall_A long_B used_C) with
  | (_, ?c) => exists c
  end.
  match eval vm_compute in (multiply swapped_A long_B used_C) with
  | (_, ?c) => exists c
  end.
  split_and!; vm_compute; reflexivity.
Qed.
